(** * snap: REST task API, control configuration, ACI extraction and the
      task scheduler

    A shallow embedding of the Go sources: [pkg/aci/aci.go], the control
    configuration ([Config.UnmarshalJSON]), the REST task handlers
    ([startTask], [watchTask], [TaskWatchHandler]), the scheduler flags and
    the distributed-workflow tests with their mock manager.  Go values are
    kept as the code has them: errors are message strings, a nil pointer is
    [None], a panic is an outcome of its own, maps are [gmap]s and the order
    in which [range] walks a map is an explicit argument. *)

From Stdlib Require Import ZArith List Ascii String Bool Lia Permutation.
From stdpp Require Import base option gmap strings list fin_maps sets pretty.

Local Open Scope Z_scope.
Local Open Scope string_scope.
Local Open Scope list_scope.

(** ** Go runtime conventions shared by the packages *)

(** A Go call either returns or panics. *)
Inductive outcome (A : Type) : Type :=
| Returned (a : A)
| Panicked (msg : string).
Arguments Returned {A} a.
Arguments Panicked {A} msg.

(** [defer d; body]: the deferred call runs when the function leaves, on a
    normal return as well as on a panic of the body; a panic of the deferred
    call replaces the result. *)
Definition withDefer {A : Type} (deferred : outcome unit) (body : outcome A) : outcome A :=
  match deferred with
  | Panicked m => Panicked m
  | Returned _ => body
  end.

(** The runtime error of a nil pointer dereference. *)
Definition nilDereference : string :=
  "runtime error: invalid memory address or nil pointer dereference".

(** The line feed of [fmt.Errorf("...\n...")]. *)
Definition LF : string := String (ascii_of_nat 10) EmptyString.

(** [strings.Contains(s, substr)]. *)
Fixpoint Contains (s substr : string) : bool :=
  String.prefix substr s ||
  match s with
  | EmptyString => false
  | String _ s' => Contains s' substr
  end.

(** ** pkg/aci *)
Module aci.

Definition ErrChmod : string := "Error changing file permissions".
Definition ErrCopyingFile : string := "Error copying file".
Definition ErrCreatingFile : string := "Error creating file".
Definition ErrMkdirAll : string := "Error making directory".
Definition ErrNext : string := "Error iterating through tar file".
Definition ErrUntar : string := "Error untarring file".

(** *** archive/tar as the package sees it *)

(** [tar.TypeReg] is ['0'] and [tar.TypeDir] is ['5']; [tar.TypeSymlink] is
    ['2'], [tar.TypeChar] is ['3']. *)
Definition TypeReg : ascii := "0"%char.
Definition TypeDir : ascii := "5"%char.
Definition TypeSymlink : ascii := "2"%char.
Definition TypeChar : ascii := "3"%char.

Record Header : Type := { Name : string; Typeflag : ascii }.

(** What reading the body of the current entry gives: its bytes, or a read
    error (a truncated or corrupt archive). *)
Inductive body : Type :=
| Bytes (data : string)
| ReadError (err : string).

(** One answer of [tr.Reader.Next()]: a header with the body behind it, or
    an error.  The end of the list is [io.EOF]. *)
Inductive tarItem : Type :=
| Entry (hdr : Header) (b : body)
| NextError (err : string).

(** [specaci.TarReadCloser]: the tar reader and the closer of the
    decompressor under it. *)
Record TarReadCloser : Type := { Reader : list tarItem; Closer : unit }.

(** The reader handed to the package, by what the appc library makes of it:
    input that is no gzip, bzip2, xz or tar stream, or an archive with its
    entries and the verdict of [specaci.ValidateArchive]. *)
Inductive ReadSeeker : Type :=
| NotAnImage (err : string)
| Image (items : list tarItem) (verdict : option string).

(** [specaci.NewCompressedTarReader]: [(nil, err)] when the decompressor
    cannot be set up, [(&TarReadCloser{...}, nil)] otherwise. *)
Definition NewCompressedTarReader (f : ReadSeeker) : option TarReadCloser * option string :=
  match f with
  | NotAnImage err => (None, Some err)
  | Image items _ => (Some {| Reader := items; Closer := tt |}, None)
  end.

(** [func (r *TarReadCloser) Close() error { return r.Closer.Close() }]:
    reading the field [Closer] through a nil receiver panics. *)
Definition Close (tr : option TarReadCloser) : outcome unit :=
  match tr with
  | None => Panicked nilDereference
  | Some _ => Returned tt
  end.

(** [specaci.ValidateArchive(tr.Reader)]. *)
Definition ValidateArchive (f : ReadSeeker) (tr : option TarReadCloser) : outcome (option string) :=
  match tr with
  | None => Panicked nilDereference
  | Some _ => match f with
              | Image _ verdict => Returned verdict
              | NotAnImage err => Returned (Some err)
              end
  end.

(** *** The file system under the calls of package os *)

(** A cleaned absolute path, as its components. *)
Abbreviation path := (list string).

Inductive node : Type :=
| File (mode : Z) (data : string)
| Dir (mode : Z).

Abbreviation FS := (gmap (list string) node).

(** The components of a slash-separated name. *)
Fixpoint splitSlash (cur : string) (s : string) : list string :=
  match s with
  | EmptyString => [cur]
  | String c s' =>
      if Ascii.eqb c "/"%char then cur :: splitSlash EmptyString s'
      else splitSlash (cur +:+ String c EmptyString) s'
  end.

(** One step of [filepath.Clean] on a rooted path. *)
Definition cleanStep (acc : path) (c : string) : path :=
  if String.eqb c "" then acc
  else if String.eqb c "." then acc
  else if String.eqb c ".." then removelast acc
  else acc ++ [c].

(** [filepath.Join(dir, name)] for a cleaned absolute [dir]. *)
Definition Join (dir : path) (name : string) : path :=
  fold_left cleanStep (splitSlash EmptyString name) dir.

Fixpoint pathString (p : path) : string :=
  match p with
  | [] => ""
  | c :: p' => "/" +:+ c +:+ pathString p'
  end.

(** The process environment of one run: its umask and the name
    [ioutil.TempDir] draws. *)
Record Env : Type := { umask : Z; tempName : string }.

(** [os.Create(file)], that is [OpenFile(file, O_RDWR|O_CREATE|O_TRUNC, 0666)]:
    an existing regular file is truncated and keeps its mode, a new one gets
    [0666 &^ umask]. *)
Definition osCreate (env : Env) (file : path) (fs : FS) : FS * option string :=
  match fs !! file with
  | Some (Dir _) => (fs, Some "is a directory")
  | Some (File m _) => (<[file := File m ""]> fs, None)
  | None =>
      match file, fs !! removelast file with
      | _ :: _, Some (Dir _) => (<[file := File (Z.ldiff 438 (umask env)) ""]> fs, None)
      | _, Some (File _ _) => (fs, Some "not a directory")
      | _, _ => (fs, Some "no such file or directory")
      end
  end.

(** [io.Copy(w, tr)] into the file just created. *)
Definition ioCopy (file : path) (b : body) (fs : FS) : FS * option string :=
  match b with
  | Bytes data =>
      match fs !! file with
      | Some (File m _) => (<[file := File m data]> fs, None)
      | _ => (fs, Some "bad file descriptor")
      end
  | ReadError err => (fs, Some err)
  end.

(** [os.Chmod(file, mode)]. *)
Definition osChmod (file : path) (mode : Z) (fs : FS) : FS * option string :=
  match fs !! file with
  | Some (File _ data) => (<[file := File mode data]> fs, None)
  | Some (Dir _) => (<[file := Dir mode]> fs, None)
  | None => (fs, Some "no such file or directory")
  end.

(** [os.MkdirAll(file, perm)], walking down from [base]: a directory on the
    way is kept, a missing one is made with [perm &^ umask], a regular file
    on the way is an error. *)
Fixpoint mkdirAllFrom (env : Env) (perm : Z) (base : path) (rest : list string) (fs : FS)
  : FS * option string :=
  match rest with
  | [] => (fs, None)
  | c :: rest' =>
      let q := base ++ [c] in
      match fs !! q with
      | Some (Dir _) => mkdirAllFrom env perm q rest' fs
      | Some (File _ _) => (fs, Some "not a directory")
      | None => mkdirAllFrom env perm q rest' (<[q := Dir (Z.ldiff perm (umask env))]> fs)
      end
  end.

Definition osMkdirAll (env : Env) (file : path) (perm : Z) (fs : FS) : FS * option string :=
  mkdirAllFrom env perm [] file fs.

(** [ioutil.TempDir("", "")]: a new directory of mode 0700 under the system
    temporary directory. *)
Definition TempDir (env : Env) (fs : FS) : FS * (path * option string) :=
  let dir := ["tmp"; tempName env] in
  match fs !! ["tmp"], fs !! dir with
  | Some (Dir _), None => (<[dir := Dir 448]> fs, (dir, None))
  | Some (Dir _), Some _ => (fs, ([], Some "file exists"))
  | _, _ => (fs, ([], Some "no such file or directory"))
  end.

(** *** Extract *)

Definition fileMode : Z := 493.

(** The [for] loop of [Extract] over the remaining answers of [Next]; the
    result is the error of the first [return "", ...], or [None] at the
    [break] on [io.EOF]. *)
Fixpoint extractLoop (env : Env) (dir : path) (items : list tarItem) (fs : FS)
  : FS * option string :=
  match items with
  | [] => (fs, None)
  | NextError err :: _ => (fs, Some (ErrNext +:+ LF +:+ err))
  | Entry hdr b :: rest =>
      let file := Join dir (Name hdr) in
      if Ascii.eqb (Typeflag hdr) TypeReg then
        match osCreate env file fs with
        | (fs1, Some err) =>
            (fs1, Some (ErrCreatingFile +:+ ": " +:+ pathString file +:+ LF +:+ err))
        | (fs1, None) =>
            match ioCopy file b fs1 with
            | (fs2, Some err) =>
                (fs2, Some (ErrCopyingFile +:+ ": " +:+ pathString file +:+ LF +:+ err))
            | (fs2, None) =>
                match osChmod file fileMode fs2 with
                | (fs3, Some err) =>
                    (fs3, Some (ErrChmod +:+ ": " +:+ pathString file +:+ LF +:+ err))
                | (fs3, None) => extractLoop env dir rest fs3
                end
            end
        end
      else if Ascii.eqb (Typeflag hdr) TypeDir then
        match osMkdirAll env file fileMode fs with
        | (fs1, Some err) =>
            (fs1, Some (ErrMkdirAll +:+ ": " +:+ pathString file +:+ LF +:+ err))
        | (fs1, None) => extractLoop env dir rest fs1
        end
      else (fs, Some (ErrUntar +:+ ": " +:+ Name hdr))
  end.

(** [Extract(f)]: the file system it leaves and its pair of results. *)
Definition Extract (env : Env) (f : ReadSeeker) (fs : FS) : outcome (FS * (string * option string)) :=
  match NewCompressedTarReader f with
  | (_, Some err) => Returned (fs, ("", Some err))
  | (tr, None) =>
      withDefer (Close tr)
        match TempDir env fs with
        | (fs0, (_, Some err)) => Returned (fs0, ("", Some err))
        | (fs0, (dir, None)) =>
            match tr with
            | None => Panicked nilDereference
            | Some r =>
                match extractLoop env dir (Reader r) fs0 with
                | (fs1, Some err) => Returned (fs1, ("", Some err))
                | (fs1, None) => Returned (fs1, (pathString dir, None))
                end
            end
        end
  end.

(** *** Validate *)

(** [Validate(f)]: [defer tr.Close()] is registered before [err] is looked
    at, so it also runs on the early [return err]. *)
Definition Validate (f : ReadSeeker) : outcome (option string) :=
  let '(tr, err) := NewCompressedTarReader f in
  withDefer (Close tr)
    match err with
    | Some e => Returned (Some e)
    | None =>
        match ValidateArchive f tr with
        | Panicked m => Panicked m
        | Returned (Some e) => Returned (Some e)
        | Returned None => Returned None
        end
    end.

(** *** Concrete runs *)

(** A root with an empty [/tmp]. *)
Definition freshFS : FS := <[ ["tmp"] := Dir 511 ]> (<[ [] := Dir 493 ]> ∅).

Definition env022 : Env := {| umask := 18; tempName := "aci0" |}.

(** An archive cut off in the body of its only entry, a regular file. *)
Definition truncatedFile : ReadSeeker :=
  Image [ Entry {| Name := "rootfs.bin"; Typeflag := TypeReg |} (ReadError "unexpected EOF") ]
    None.

(** A regular file in a directory the archive has no entry for, then a
    symbolic link. *)
Definition fileWithoutDirThenLink : ReadSeeker :=
  Image [ Entry {| Name := "rootfs/plugin"; Typeflag := TypeReg |} (Bytes "ELF");
          Entry {| Name := "link"; Typeflag := TypeSymlink |} (Bytes "") ] None.

(** Two entries that are neither files nor directories. *)
Definition twoLinks : ReadSeeker :=
  Image [ Entry {| Name := "first"; Typeflag := TypeSymlink |} (Bytes "");
          Entry {| Name := "second"; Typeflag := TypeChar |} (Bytes "") ] None.

(** A directory, a file in it and a link. *)
Definition dirFileLink : ReadSeeker :=
  Image [ Entry {| Name := "rootfs"; Typeflag := TypeDir |} (Bytes "");
          Entry {| Name := "rootfs/plugin"; Typeflag := TypeReg |} (Bytes "ELF");
          Entry {| Name := "rootfs/link"; Typeflag := TypeSymlink |} (Bytes "") ] None.

End aci.

(** ** control: the configuration read from the global config file *)
Module control.

(** A value with Go's [error] beside it. *)
Inductive result (A : Type) : Type :=
| Ok (a : A)
| Err (e : string).
Arguments Ok {A} a.
Arguments Err {A} e.

(** The JSON document a [[]byte] or a [json.RawMessage] holds: a number is
    an integer literal, or the text of a literal with a fraction or an
    exponent; a string is held decoded. *)
#[warnings="-register-all"]
Inductive jsonValue : Type :=
| JNull
| JBool (b : bool)
| JNumber (n : Z)
| JFraction (text : string)
| JString (s : string)
| JArray (items : list jsonValue)
| JObject (members : list (string * jsonValue)).

(** The word [json.UnmarshalTypeError] has for a value. *)
Definition kindOf (v : jsonValue) : string :=
  match v with
  | JNull => "null"
  | JBool _ => "bool"
  | JNumber _ => "number"
  | JFraction _ => "number"
  | JString _ => "string"
  | JArray _ => "array"
  | JObject _ => "object"
  end.

(** What the file takes from other packages: [time.ParseDuration] behind
    [jsonutil.Duration], and the decoder of the [plugins] section, whose
    [cdata] nodes are not part of this file. *)
Class Decoders : Type := {
  pluginConfig : Type;
  ParseDuration : string → result Z;
  unmarshalPluginConfig : jsonValue → pluginConfig → result pluginConfig
}.

Section WithDecoders.
Context `{Decoders}.

Record Config : Type := {
  MaxRunningPlugins : Z;
  PluginLoadTimeout : Z;
  PluginTrust : Z;
  AutoDiscoverPath : string;
  KeyringPaths : string;
  CacheExpiration : Z;
  Plugins : option pluginConfig;
  ListenAddr : string;
  ListenPort : Z
}.

Definition defaultListenAddr : string := "127.0.0.1".
Definition defaultListenPort : Z := 8082.
Definition defaultMaxRunningPlugins : Z := 3.
Definition defaultPluginLoadTimeout : Z := 3.
Definition defaultPluginTrust : Z := 1.
Definition defaultAutoDiscoverPath : string := "".
Definition defaultKeyringPaths : string := "".
Definition defaultCacheExpiration : Z := 500 * 1000000.

Definition GetDefaultConfig (newPluginConfig : pluginConfig) : Config :=
  {| ListenAddr := defaultListenAddr;
     ListenPort := defaultListenPort;
     MaxRunningPlugins := defaultMaxRunningPlugins;
     PluginLoadTimeout := defaultPluginLoadTimeout;
     PluginTrust := defaultPluginTrust;
     AutoDiscoverPath := defaultAutoDiscoverPath;
     KeyringPaths := defaultKeyringPaths;
     CacheExpiration := defaultCacheExpiration;
     Plugins := Some newPluginConfig |}.

(** [json.Unmarshal(v, &n)] for an [int] field: [null] leaves it alone, an
    integer that fits 64 bits is stored, anything else is an error; the
    error of a number that is no such integer quotes the number. *)
Definition unmarshalInt (v : jsonValue) (old : Z) : result Z :=
  match v with
  | JNull => Ok old
  | JNumber n =>
      if Z.leb (- 2 ^ 63) n && Z.ltb n (2 ^ 63) then Ok n
      else Err ("json: cannot unmarshal number " +:+ pretty n +:+ " into Go value of type int")
  | JFraction text =>
      Err ("json: cannot unmarshal number " +:+ text +:+ " into Go value of type int")
  | _ => Err ("json: cannot unmarshal " +:+ kindOf v +:+ " into Go value of type int")
  end.

(** [json.Unmarshal(v, &s)] for a [string] field. *)
Definition unmarshalString (v : jsonValue) (old : string) : result string :=
  match v with
  | JNull => Ok old
  | JString s => Ok s
  | _ => Err ("json: cannot unmarshal " +:+ kindOf v +:+ " into Go value of type string")
  end.

(** [json.Unmarshal(v, &(c.CacheExpiration))]: [jsonutil.Duration] has an
    [UnmarshalJSON] of its own, which [json.Unmarshal] calls for every
    value, [null] included.  It unquotes the text with [strconv.Unquote],
    which refuses whatever is not a quoted string, and hands the string to
    [time.ParseDuration]. *)
Definition unmarshalDuration (v : jsonValue) (old : Z) : result Z :=
  match v with
  | JString s => ParseDuration s
  | _ => Err "invalid syntax"
  end.

(** [json.Unmarshal(v, c.Plugins)]: a nil pointer is refused. *)
Definition unmarshalPlugins (v : jsonValue) (old : option pluginConfig) : result (option pluginConfig) :=
  match old with
  | None => Err "json: Unmarshal(nil *control.pluginConfig)"
  | Some p =>
      match unmarshalPluginConfig v p with
      | Ok p' => Ok (Some p')
      | Err e => Err e
      end
  end.

(** [json.Unmarshal(data, &t)] for [t := make(map[string]json.RawMessage)]:
    the members of an object, a later duplicate replacing an earlier one;
    [null] leaves the map empty. *)
Definition unmarshalMap (data : jsonValue) : result (gmap string jsonValue) :=
  match data with
  | JObject members => Ok (list_to_map (reverse members))
  | JNull => Ok ∅
  | _ =>
      Err ("json: cannot unmarshal " +:+ kindOf data
           +:+ " into Go value of type map[string]json.RawMessage")
  end.

Definition whileParsing (e field : string) : string :=
  e +:+ " (while parsing 'control::" +:+ field +:+ "')".

Definition unrecognizedKey (k : string) : string :=
  "Unrecognized key '" +:+ k +:+ "' in global config file while parsing 'control'".

(** The body of the loop: the [switch k] with its cases in the order of
    the source. *)
Definition switchKey (k : string) (v : jsonValue) (c : Config) : Config * option string :=
  if String.eqb k "max_running_plugins" then
    match unmarshalInt v (MaxRunningPlugins c) with
    | Err e => (c, Some (whileParsing e "max_running_plugins"))
    | Ok n =>
        ({| MaxRunningPlugins := n; PluginLoadTimeout := PluginLoadTimeout c;
            PluginTrust := PluginTrust c; AutoDiscoverPath := AutoDiscoverPath c;
            KeyringPaths := KeyringPaths c; CacheExpiration := CacheExpiration c;
            Plugins := Plugins c; ListenAddr := ListenAddr c; ListenPort := ListenPort c |},
         None)
    end
  else if String.eqb k "plugin_load_timeout" then
    match unmarshalInt v (PluginLoadTimeout c) with
    | Err e => (c, Some (whileParsing e "plugin_load_timeout"))
    | Ok n =>
        ({| MaxRunningPlugins := MaxRunningPlugins c; PluginLoadTimeout := n;
            PluginTrust := PluginTrust c; AutoDiscoverPath := AutoDiscoverPath c;
            KeyringPaths := KeyringPaths c; CacheExpiration := CacheExpiration c;
            Plugins := Plugins c; ListenAddr := ListenAddr c; ListenPort := ListenPort c |},
         None)
    end
  else if String.eqb k "plugin_trust_level" then
    match unmarshalInt v (PluginTrust c) with
    | Err e => (c, Some (whileParsing e "plugin_trust_level"))
    | Ok n =>
        ({| MaxRunningPlugins := MaxRunningPlugins c; PluginLoadTimeout := PluginLoadTimeout c;
            PluginTrust := n; AutoDiscoverPath := AutoDiscoverPath c;
            KeyringPaths := KeyringPaths c; CacheExpiration := CacheExpiration c;
            Plugins := Plugins c; ListenAddr := ListenAddr c; ListenPort := ListenPort c |},
         None)
    end
  else if String.eqb k "auto_discover_path" then
    match unmarshalString v (AutoDiscoverPath c) with
    | Err e => (c, Some (whileParsing e "auto_discover_path"))
    | Ok s =>
        ({| MaxRunningPlugins := MaxRunningPlugins c; PluginLoadTimeout := PluginLoadTimeout c;
            PluginTrust := PluginTrust c; AutoDiscoverPath := s;
            KeyringPaths := KeyringPaths c; CacheExpiration := CacheExpiration c;
            Plugins := Plugins c; ListenAddr := ListenAddr c; ListenPort := ListenPort c |},
         None)
    end
  else if String.eqb k "keyring_paths" then
    match unmarshalString v (KeyringPaths c) with
    | Err e => (c, Some (whileParsing e "keyring_paths"))
    | Ok s =>
        ({| MaxRunningPlugins := MaxRunningPlugins c; PluginLoadTimeout := PluginLoadTimeout c;
            PluginTrust := PluginTrust c; AutoDiscoverPath := AutoDiscoverPath c;
            KeyringPaths := s; CacheExpiration := CacheExpiration c;
            Plugins := Plugins c; ListenAddr := ListenAddr c; ListenPort := ListenPort c |},
         None)
    end
  else if String.eqb k "cache_expiration" then
    match unmarshalDuration v (CacheExpiration c) with
    | Err e => (c, Some (whileParsing e "cache_expiration"))
    | Ok d =>
        ({| MaxRunningPlugins := MaxRunningPlugins c; PluginLoadTimeout := PluginLoadTimeout c;
            PluginTrust := PluginTrust c; AutoDiscoverPath := AutoDiscoverPath c;
            KeyringPaths := KeyringPaths c; CacheExpiration := d;
            Plugins := Plugins c; ListenAddr := ListenAddr c; ListenPort := ListenPort c |},
         None)
    end
  else if String.eqb k "plugins" then
    match unmarshalPlugins v (Plugins c) with
    | Err e => (c, Some e)
    | Ok p =>
        ({| MaxRunningPlugins := MaxRunningPlugins c; PluginLoadTimeout := PluginLoadTimeout c;
            PluginTrust := PluginTrust c; AutoDiscoverPath := AutoDiscoverPath c;
            KeyringPaths := KeyringPaths c; CacheExpiration := CacheExpiration c;
            Plugins := p; ListenAddr := ListenAddr c; ListenPort := ListenPort c |},
         None)
    end
  else if String.eqb k "listen_addr" then
    match unmarshalString v (ListenAddr c) with
    | Err e => (c, Some e)
    | Ok s =>
        ({| MaxRunningPlugins := MaxRunningPlugins c; PluginLoadTimeout := PluginLoadTimeout c;
            PluginTrust := PluginTrust c; AutoDiscoverPath := AutoDiscoverPath c;
            KeyringPaths := KeyringPaths c; CacheExpiration := CacheExpiration c;
            Plugins := Plugins c; ListenAddr := s; ListenPort := ListenPort c |},
         None)
    end
  else if String.eqb k "listen_port" then
    match unmarshalInt v (ListenPort c) with
    | Err e => (c, Some e)
    | Ok n =>
        ({| MaxRunningPlugins := MaxRunningPlugins c; PluginLoadTimeout := PluginLoadTimeout c;
            PluginTrust := PluginTrust c; AutoDiscoverPath := AutoDiscoverPath c;
            KeyringPaths := KeyringPaths c; CacheExpiration := CacheExpiration c;
            Plugins := Plugins c; ListenAddr := ListenAddr c; ListenPort := n |},
         None)
    end
  else (c, Some (unrecognizedKey k)).

(** [for k, v := range t { ... }] over the entries in the order the
    runtime yields them. *)
Fixpoint rangeLoop (entries : list (string * jsonValue)) (c : Config) : Config * option string :=
  match entries with
  | [] => (c, None)
  | (k, v) :: rest =>
      match switchKey k v c with
      | (c', Some e) => (c', Some e)
      | (c', None) => rangeLoop rest c'
      end
  end.

(** [(c *Config) UnmarshalJSON(data)].  Go leaves the order of a [range]
    over a map open: [order] is the arrangement of the map's entries this
    run walks. *)
Definition UnmarshalJSON
    (order : list (string * jsonValue) → list (string * jsonValue))
    (data : jsonValue) (c : Config) : Config * option string :=
  match unmarshalMap data with
  | Err e => (c, Some e)
  | Ok t => rangeLoop (order (map_to_list t)) c
  end.

(** The keys with a case in the switch. *)
Definition recognisedKeys : list string :=
  [ "max_running_plugins"; "plugin_load_timeout"; "plugin_trust_level";
    "auto_discover_path"; "keyring_paths"; "cache_expiration"; "plugins";
    "listen_addr"; "listen_port" ].

End WithDecoders.

(** *** Concrete runs *)

(** Decoders for runs without a [plugins] section: durations are given in
    whole seconds, written as their digits. *)
#[local] Instance plainDecoders : Decoders := {|
  pluginConfig := unit;
  ParseDuration := λ s, if String.eqb s "1s" then Ok 1000000000 else Err ("time: invalid duration " +:+ s);
  unmarshalPluginConfig := λ _ p, Ok p
|}.

Definition defaultConfig : Config := GetDefaultConfig tt.

(** [{"bogus": 1, "max_running_plugins": "many"}]. *)
Definition bogusAndBadValue : jsonValue :=
  JObject [("bogus", JNumber 1); ("max_running_plugins", JString "many")].

(** [{"alpha": 1, "beta": 2}]. *)
Definition twoUnknownKeys : jsonValue :=
  JObject [("alpha", JNumber 1); ("beta", JNumber 2)].

(** [{"plugins": {}, "bogus": true, "cache_expiration": "1s"}]. *)
Definition pluginsAndUnknownKey : jsonValue :=
  JObject [("plugins", JObject []); ("bogus", JBool true);
           ("cache_expiration", JString "1s")].

(** Two ways a run may walk the map. *)
Definition asStored (l : list (string * jsonValue)) : list (string * jsonValue) := l.
Definition backwards (l : list (string * jsonValue)) : list (string * jsonValue) := reverse l.

End control.

(** ** scheduler *)
Module scheduler.

(** *** The flags of the work manager (flags.go) *)

(** [cli.StringFlag], with the fields the file sets. *)
Record StringFlag : Type := { Name : string; Usage : string; EnvVar : string }.

(** Modelled from the spec: [defaultWorkManagerQueueSize] and
    [defaultWorkManagerPoolSize] are declared outside the files at hand;
    the specification and the configuration guide give 25 and 4. *)
Definition defaultWorkManagerQueueSize : Z := 25.
Definition defaultWorkManagerPoolSize : Z := 4.

Definition flSchedulerQueueSize : StringFlag :=
  {| Name := "work-manager-queue-size";
     Usage := "Size of the work manager queue (default: " +:+ pretty defaultWorkManagerQueueSize +:+ ")";
     EnvVar := "WORK_MANAGER_QUEUE_SIZE" |}.

Definition flSchedulerPoolSize : StringFlag :=
  {| Name := "work-manager-pool-size";
     Usage := "Size of the work manager pool (default: " +:+ pretty defaultWorkManagerPoolSize +:+ ")";
     EnvVar := "WORK_MANAGER_POOL_SIZE" |}.

Definition Flags : list StringFlag := [flSchedulerQueueSize; flSchedulerPoolSize].

(** Where a run may find a value for the options: the flags given on the
    command line (by flag name), the [scheduler] section of the
    configuration file (by key), and the process environment (by variable
    name). *)
Record Sources : Type := {
  commandLine : gmap string Z;
  configFile : gmap string Z;
  environment : gmap string Z
}.

(** Modelled from the spec: the resolution of an option, which the daemon
    does outside the files at hand.  "CLI flags of the same names override
    the file, which overrides environment, which overrides defaults." *)
Definition resolve (fl : StringFlag) (key : string) (default : Z) (src : Sources) : Z :=
  match commandLine src !! Name fl with
  | Some v => v
  | None =>
      match configFile src !! key with
      | Some v => v
      | None =>
          match environment src !! EnvVar fl with
          | Some v => v
          | None => default
          end
      end
  end.

(** Modelled from the spec: the two options of the [scheduler] section. *)
Definition workManagerQueueSize (src : Sources) : Z :=
  resolve flSchedulerQueueSize "work_manager_queue_size" defaultWorkManagerQueueSize src.
Definition workManagerPoolSize (src : Sources) : Z :=
  resolve flSchedulerPoolSize "work_manager_pool_size" defaultWorkManagerPoolSize src.

(** *** Workflow maps, as the tests build them *)

Inductive PluginType : Type := CollectorPluginType | ProcessorPluginType | PublisherPluginType.

#[global] Instance PluginType_eq_dec : EqDecision PluginType.
Proof. solve_decision. Defined.

(** [wmap.ProcessWorkflowMapNode] and [wmap.PublishWorkflowMapNode]. *)
#[warnings="-register-all"]
Inductive WorkflowMapNode : Type :=
| ProcessWorkflowMapNode (name : string) (version : Z) (config : list (string * string))
    (target : string) (children : list WorkflowMapNode)
| PublishWorkflowMapNode (name : string) (version : Z) (config : list (string * string))
    (target : string).

(** [wmap.CollectWorkflowMapNode] under [wmap.WorkflowMap]: the requested
    metrics with their versions, the configuration per namespace and the
    nodes below the collector. *)
Record WorkflowMap : Type := {
  Metrics : list (string * Z);
  Config : list (string * list (string * string));
  Nodes : list WorkflowMapNode
}.

(** [dsWFMap(port)]. *)
Definition dsWFMap (port : Z) : WorkflowMap :=
  let pu := PublishWorkflowMapNode "mock-file" (-1) [("file", "/dev/null")] "" in
  let pr := ProcessWorkflowMapNode "passthru" (-1) [] ("127.0.0.1:" +:+ pretty port) [pu] in
  {| Metrics := [("/intel/mock/foo", 2)];
     Config := [("/intel/mock/foo", [("password", "required")])];
     Nodes := [pr] |}.

(** *** Managers *)

(** [core.SubscribedPlugin]. *)
Record SubscribedPlugin : Type := {
  TypeName : PluginType;
  PluginName : string;
  Version : Z
}.

(** The capability the scheduler subscribes through; [subscriptionManager]
    below implements these two methods (the configuration tree it is also
    handed plays no part and is left out). *)
Class managesMetrics (M : Type) : Type := {
  SubscribeDeps : string → list (string * Z) → list SubscribedPlugin → M → M * list string;
  UnsubscribeDeps : string → M → M * list string
}.

(** Modelled from the spec: [ValidateDeps] of the Manager Client (4.C), a
    check that changes nothing. *)
Class validatesDeps (M : Type) : Type := {
  ValidateDeps : list (string * Z) → list SubscribedPlugin → M → list string
}.

(** The mock of the tests. *)
Record subscriptionManager : Type := {
  Fail : bool;
  SubscribeCallCount : Z;
  UnsubscribeCallCount : Z
}.

Definition subscriptionManager_SubscribeDeps
    (taskID : string) (reqs : list (string * Z)) (cps : list SubscribedPlugin)
    (m : subscriptionManager) : subscriptionManager * list string :=
  if Fail m then (m, ["error"])
  else ({| Fail := Fail m;
           SubscribeCallCount := SubscribeCallCount m + 1;
           UnsubscribeCallCount := UnsubscribeCallCount m |}, []).

Definition subscriptionManager_UnsubscribeDeps
    (taskID : string) (m : subscriptionManager) : subscriptionManager * list string :=
  ({| Fail := Fail m;
      SubscribeCallCount := SubscribeCallCount m;
      UnsubscribeCallCount := UnsubscribeCallCount m + 1 |}, []).

#[global] Instance subscriptionManager_managesMetrics : managesMetrics subscriptionManager := {|
  SubscribeDeps := subscriptionManager_SubscribeDeps;
  UnsubscribeDeps := subscriptionManager_UnsubscribeDeps
|}.

(** Modelled from the spec: a Manager Client (4.C) over a control with the
    plugins it has loaded, the metrics they expose and, per task id, the
    plugins subscribed for it. *)
Record control : Type := {
  loaded : list SubscribedPlugin;
  catalogue : list (string * Z);
  subscriptions : gmap string (list SubscribedPlugin)
}.

(** Modelled from the spec: "each named plugin exists at requested version
    or latest" (version -1), and "each requested metric can be
    satisfied". *)
Definition pluginLoaded (c : control) (p : SubscribedPlugin) : bool :=
  existsb (λ q, bool_decide (TypeName q = TypeName p) && String.eqb (PluginName q) (PluginName p)
                && (Z.eqb (Version p) (-1) || Z.eqb (Version q) (Version p))) (loaded c).
Definition metricExposed (c : control) (mt : string * Z) : bool :=
  existsb (λ q, String.eqb q.1 mt.1 && (Z.eqb mt.2 (-1) || Z.eqb q.2 mt.2)) (catalogue c).

(** Modelled from the spec: [ValidateDeps], one error for each metric and
    each plugin that is missing. *)
Definition control_ValidateDeps
    (mts : list (string * Z)) (plugins : list SubscribedPlugin) (c : control) : list string :=
  map (λ mt, "Metric not found: " +:+ mt.1) (filter (λ mt, metricExposed c mt = false) mts)
  ++ map (λ p, "Plugin not found: " +:+ PluginName p) (filter (λ p, pluginLoaded c p = false) plugins).

(** Modelled from the spec: [SubscribeDeps] and [UnsubscribeDeps] of the
    Manager Client: a subscription is taken for dependencies that
    validate, and [UnsubscribeDeps] releases every subscription of the
    task id, also when there is none. *)
Definition control_SubscribeDeps
    (taskID : string) (mts : list (string * Z)) (plugins : list SubscribedPlugin)
    (c : control) : control * list string :=
  match control_ValidateDeps mts plugins c with
  | [] => ({| loaded := loaded c; catalogue := catalogue c;
              subscriptions := <[taskID := plugins]> (subscriptions c) |}, [])
  | errs => (c, errs)
  end.
Definition control_UnsubscribeDeps (taskID : string) (c : control) : control * list string :=
  ({| loaded := loaded c; catalogue := catalogue c;
      subscriptions := delete taskID (subscriptions c) |}, []).

#[global] Instance control_managesMetrics : managesMetrics control := {|
  SubscribeDeps := control_SubscribeDeps;
  UnsubscribeDeps := control_UnsubscribeDeps
|}.
#[global] Instance control_validatesDeps : validatesDeps control := {|
  ValidateDeps := control_ValidateDeps
|}.

(** *** Dependencies by target *)

Record depGroup : Type := {
  requestedMetrics : list (string * Z);
  subscribedPlugins : list SubscribedPlugin
}.

(** The plugins of a node and of the nodes below it, in pre-order, each
    with the address of its target. *)
Fixpoint nodePlugins (n : WorkflowMapNode) : list (string * SubscribedPlugin) :=
  match n with
  | ProcessWorkflowMapNode name version _ target children =>
      (target, {| TypeName := ProcessorPluginType; PluginName := name; Version := version |})
      :: flat_map nodePlugins children
  | PublishWorkflowMapNode name version _ target =>
      [(target, {| TypeName := PublisherPluginType; PluginName := name; Version := version |})]
  end.

Definition addPlugin (g : gmap string depGroup) (tp : string * SubscribedPlugin)
  : gmap string depGroup :=
  match g !! tp.1 with
  | Some d =>
      <[tp.1 := {| requestedMetrics := requestedMetrics d;
                   subscribedPlugins := subscribedPlugins d ++ [tp.2] |}]> g
  | None => <[tp.1 := {| requestedMetrics := []; subscribedPlugins := [tp.2] |}]> g
  end.

(** Modelled from the spec: "walks the workflow tree, groups nodes by
    target address"; the collector and its metrics belong to the local
    address, the empty string. *)
Definition groupByTarget (wf : WorkflowMap) : gmap string depGroup :=
  fold_left addPlugin (flat_map nodePlugins (Nodes wf))
    {[ "" := {| requestedMetrics := Metrics wf; subscribedPlugins := [] |} ]}.

(** *** Subscription manager *)

(** A call made on the manager at an address for a task. *)
Inductive call : Type :=
| Subscribed (address taskID : string) (ok : bool)
| Unsubscribed (address taskID : string).

Definition ErrRemoteUnavailable (address : string) : string :=
  "RemoteUnavailable: " +:+ address.

Section WithManagers.
Context {M : Type} `{!managesMetrics M}.

(** The managers by address, the calls made so far (latest first) and the
    errors of the operation under way. *)
Record outcomeOf : Type := {
  managersAfter : gmap string M;
  callsMade : list call;
  errorsOf : list string
}.

(** Modelled from the spec: [UnsubscribeDeps(taskId)] on each of the
    addresses, in turn. *)
Fixpoint unsubscribeEach (taskID : string) (addresses : list string)
    (mgrs : gmap string M) (log : list call) (errs : list string) : outcomeOf :=
  match addresses with
  | [] => {| managersAfter := mgrs; callsMade := log; errorsOf := errs |}
  | a :: rest =>
      match mgrs !! a with
      | None => unsubscribeEach taskID rest mgrs log (errs ++ [ErrRemoteUnavailable a])
      | Some m =>
          let '(m', uerrs) := UnsubscribeDeps taskID m in
          unsubscribeEach taskID rest (<[a := m']> mgrs) (Unsubscribed a taskID :: log)
            (errs ++ uerrs)
      end
  end.

(** Modelled from the spec: [SubscribeDeps] "exactly once per address with
    the aggregated dependency set", and the compensation: when an address
    returns an error, [UnsubscribeDeps(taskId)] "on every address it has
    already subscribed" before the error is surfaced.  The specification
    adds "(including the failing one)"; the test
    [TestDistributedSubscriptions] asserts that the two counters of the
    failing mock are equal, and that mock counts [UnsubscribeDeps] always
    and [SubscribeDeps] only when it succeeds, so the failing address is not
    unsubscribed, and is not here.  An address without a reachable manager
    is an error with no manager to call. *)
Fixpoint subscribeEach (taskID : string) (groups : list (string * depGroup))
    (subscribed : list string) (mgrs : gmap string M) (log : list call) : outcomeOf :=
  match groups with
  | [] => {| managersAfter := mgrs; callsMade := log; errorsOf := [] |}
  | (a, g) :: rest =>
      match mgrs !! a with
      | None => unsubscribeEach taskID subscribed mgrs log [ErrRemoteUnavailable a]
      | Some m =>
          let '(m', errs) := SubscribeDeps taskID (requestedMetrics g) (subscribedPlugins g) m in
          match errs with
          | [] => subscribeEach taskID rest (subscribed ++ [a]) (<[a := m']> mgrs)
                    (Subscribed a taskID true :: log)
          | _ :: _ =>
              unsubscribeEach taskID subscribed (<[a := m']> mgrs)
                (Subscribed a taskID false :: log) errs
          end
      end
  end.

(** Modelled from the spec: [Prepare(task)] and [Release(task)] of the
    Subscription Manager (4.E).  The groups are a map by address; [order]
    is the arrangement in which this run walks them. *)
Definition Prepare
    (order : list (string * depGroup) → list (string * depGroup))
    (taskID : string) (wf : WorkflowMap) (mgrs : gmap string M) : outcomeOf :=
  subscribeEach taskID (order (map_to_list (groupByTarget wf))) [] mgrs [].

Definition Release
    (order : list (string * depGroup) → list (string * depGroup))
    (taskID : string) (wf : WorkflowMap) (mgrs : gmap string M) : outcomeOf :=
  unsubscribeEach taskID (order (map_to_list (groupByTarget wf))).*1 mgrs [] [].

(** *** Tasks *)

(** Modelled from the spec: the states of the task state machine (3). *)
Inductive TaskState : Type := Created | Spin | Stopped | Disabled | Removed.

(** Modelled from the spec: the schedules (4.A), periods in
    milliseconds. *)
Inductive Schedule : Type :=
| SimpleSchedule (period : Z)
| WindowedSchedule (period start stop : Z)
| CronSchedule (expression : string).

(** Modelled from the spec: the event variants of the wire surface (6). *)
Inductive Event : Type :=
| TaskStartedEvent
| TaskStoppedEvent
| TaskDisabledEvent (why : string)
| TaskEnabledEvent
| MetricsCollectedEvent
| MetricsGatheredMissEvent
| ProcessErrorEvent (why : string)
| MetricPublishErrorEvent (why : string).

(** Modelled from the spec: the attributes of a task (3) that the state
    machine reads or writes. *)
Record task : Type := {
  ID : string;
  workflow : WorkflowMap;
  schedule : Schedule;
  state : TaskState;
  hitCount : nat;
  missCount : nat;
  failedCount : nat;
  consecutiveFailure : nat;
  threshold : nat
}.

(** Modelled from the spec: the stop-on-failure threshold, "default 3". *)
Definition defaultStopOnFailure : nat := 3.

Definition newTask (id : string) (sch : Schedule) (wf : WorkflowMap) (stopOnFailure : option nat)
  : task :=
  {| ID := id; workflow := wf; schedule := sch; state := Created;
     hitCount := 0; missCount := 0; failedCount := 0; consecutiveFailure := 0;
     threshold := default defaultStopOnFailure stopOnFailure |}.

Definition withState (st : TaskState) (t : task) : task :=
  {| ID := ID t; workflow := workflow t; schedule := schedule t; state := st;
     hitCount := hitCount t; missCount := missCount t; failedCount := failedCount t;
     consecutiveFailure := consecutiveFailure t; threshold := threshold t |}.

(** Modelled from the spec: how one firing ended (4.G, steps 3 and 4): every
    node succeeded, a node failed, or the work manager answered
    [QueueFull]. *)
Inductive firing : Type :=
| FiringSucceeded
| FiringFailed (ev : Event) (why : string)
| FiringMissed.

(** Modelled from the spec: the bookkeeping of a firing on the task: a
    success resets the consecutive-failure counter, a failure increments
    it, a miss counts as a miss only. *)
Definition recordFiring (o : firing) (t : task) : task :=
  match o with
  | FiringSucceeded =>
      {| ID := ID t; workflow := workflow t; schedule := schedule t; state := state t;
         hitCount := S (hitCount t); missCount := missCount t; failedCount := failedCount t;
         consecutiveFailure := 0; threshold := threshold t |}
  | FiringFailed _ _ =>
      {| ID := ID t; workflow := workflow t; schedule := schedule t; state := state t;
         hitCount := hitCount t; missCount := missCount t; failedCount := S (failedCount t);
         consecutiveFailure := S (consecutiveFailure t); threshold := threshold t |}
  | FiringMissed =>
      {| ID := ID t; workflow := workflow t; schedule := schedule t; state := state t;
         hitCount := hitCount t; missCount := S (missCount t); failedCount := failedCount t;
         consecutiveFailure := consecutiveFailure t; threshold := threshold t |}
  end.

Definition resetFailures (t : task) : task :=
  {| ID := ID t; workflow := workflow t; schedule := schedule t; state := state t;
     hitCount := hitCount t; missCount := missCount t; failedCount := failedCount t;
     consecutiveFailure := 0; threshold := threshold t |}.

(** *** Scheduler *)

(** Modelled from the spec: what the Scheduler owns (3, 4.H): the task
    table, the managers by address (the empty address is the local one),
    the calls made on them and the events emitted (latest first), and the
    tasks with a running ticker. *)
Record scheduler : Type := {
  tasks : gmap string task;
  managers : gmap string M;
  calls : list call;
  events : list (string * Event);
  tickers : gset string
}.

(** The messages the REST handlers look for in the errors of the
    scheduler. *)
Definition ErrTaskNotFound : string := "Task not found".
Definition ErrTaskDisabledNotRunnable : string := "Task is disabled. Cannot be started".
Definition ErrTaskNotDisabled : string := "Task must be disabled".
Definition ErrTaskAlreadyExists : string := "A task with that ID already exists".

(** Modelled from the spec: [StartTask(id)] "refuses if task is Disabled;
    calls Subscription.Prepare; spawns the ticker"; on an error of
    [Prepare] the task stays as it is and the errors are surfaced (4.G).
    The table has no Start for a running task: nothing happens then. *)
Definition StartTask
    (order : list (string * depGroup) → list (string * depGroup))
    (id : string) (s : scheduler) : list string * scheduler :=
  match tasks s !! id with
  | None => ([ErrTaskNotFound], s)
  | Some t =>
      match state t with
      | Disabled => ([ErrTaskDisabledNotRunnable], s)
      | Created | Stopped =>
          let r := Prepare order id (workflow t) (managers s) in
          match errorsOf r with
          | [] =>
              ([], {| tasks := <[id := withState Spin t]> (tasks s);
                      managers := managersAfter r;
                      calls := callsMade r ++ calls s;
                      events := (id, TaskStartedEvent) :: events s;
                      tickers := {[id]} ∪ tickers s |})
          | errs =>
              (errs, {| tasks := tasks s;
                        managers := managersAfter r;
                        calls := callsMade r ++ calls s;
                        events := events s;
                        tickers := tickers s |})
          end
      | Spin | Removed => ([], s)
      end
  end.

(** Modelled from the spec: [StopTask(id)], the Stop row of the table:
    [Subscription.Release], emit [TaskStopped]. *)
Definition StopTask
    (order : list (string * depGroup) → list (string * depGroup))
    (id : string) (s : scheduler) : list string * scheduler :=
  match tasks s !! id with
  | None => ([ErrTaskNotFound], s)
  | Some t =>
      match state t with
      | Spin =>
          let r := Release order id (workflow t) (managers s) in
          (errorsOf r, {| tasks := <[id := withState Stopped t]> (tasks s);
                          managers := managersAfter r;
                          calls := callsMade r ++ calls s;
                          events := (id, TaskStoppedEvent) :: events s;
                          tickers := tickers s ∖ {[id]} |})
      | _ => ([], s)
      end
  end.

(** Modelled from the spec: [RemoveTask(id)], "Stop then drop from
    table". *)
Definition RemoveTask
    (order : list (string * depGroup) → list (string * depGroup))
    (id : string) (s : scheduler) : list string * scheduler :=
  match tasks s !! id with
  | None => ([ErrTaskNotFound], s)
  | Some _ =>
      let '(errs, s1) := StopTask order id s in
      (errs, {| tasks := delete id (tasks s1); managers := managers s1; calls := calls s1;
                events := events s1; tickers := tickers s1 |})
  end.

(** Modelled from the spec: [EnableTask(id)], "Disabled → Stopped only;
    resets consecutive-failure". *)
Definition EnableTask (id : string) (s : scheduler) : option task * list string * scheduler :=
  match tasks s !! id with
  | None => (None, [ErrTaskNotFound], s)
  | Some t =>
      match state t with
      | Disabled =>
          let t' := withState Stopped (resetFailures t) in
          (Some t', [], {| tasks := <[id := t']> (tasks s); managers := managers s;
                           calls := calls s;
                           events := (id, TaskEnabledEvent) :: events s;
                           tickers := tickers s |})
      | _ => (None, [ErrTaskNotDisabled], s)
      end
  end.

(** Modelled from the spec: the end of one firing of a running task: the
    outcome is recorded and its event emitted; when the consecutive-failure
    counter reaches the threshold the task becomes Disabled, with
    [Subscription.Release] and [TaskDisabled(why)] (4.G). *)
Definition Fire
    (order : list (string * depGroup) → list (string * depGroup))
    (id : string) (o : firing) (s : scheduler) : scheduler :=
  match tasks s !! id with
  | None => s
  | Some t =>
      match state t with
      | Spin =>
          let t' := recordFiring o t in
          match o with
          | FiringSucceeded =>
              {| tasks := <[id := t']> (tasks s); managers := managers s; calls := calls s;
                 events := (id, MetricsCollectedEvent) :: events s; tickers := tickers s |}
          | FiringMissed =>
              {| tasks := <[id := t']> (tasks s); managers := managers s; calls := calls s;
                 events := (id, MetricsGatheredMissEvent) :: events s; tickers := tickers s |}
          | FiringFailed ev why =>
              if Nat.leb (threshold t') (consecutiveFailure t') then
                let r := Release order id (workflow t) (managers s) in
                {| tasks := <[id := withState Disabled t']> (tasks s);
                   managers := managersAfter r;
                   calls := callsMade r ++ calls s;
                   events := (id, TaskDisabledEvent why) :: (id, ev) :: events s;
                   tickers := tickers s ∖ {[id]} |}
              else
                {| tasks := <[id := t']> (tasks s); managers := managers s; calls := calls s;
                   events := (id, ev) :: events s; tickers := tickers s |}
          end
      | _ => s
      end
  end.

(** Modelled from the spec: the validation of a workflow against the
    managers of its targets, through [ValidateDeps]; a target without a
    reachable manager is one [RemoteUnavailable] error. *)
Definition validateGroups `{!validatesDeps M}
    (groups : list (string * depGroup)) (mgrs : gmap string M) : list string :=
  flat_map (λ ag : string * depGroup,
              match mgrs !! ag.1 with
              | None => [ErrRemoteUnavailable ag.1]
              | Some m => ValidateDeps (requestedMetrics ag.2) (subscribedPlugins ag.2) m
              end) groups.

(** Modelled from the spec: [CreateTask(schedule, workflow, start?)]
    "validates the workflow against the Metric Manager, assigns an id,
    inserts into the table. errors is a list; non-empty means the task was
    NOT created".  The id is drawn outside ([uuid]).  With [start?] set,
    [StartTask] follows on the task just inserted and its errors are
    surfaced; when its [Prepare] fails the task stays in Created, as the
    Start row of 4.G has it. *)
Definition CreateTask `{!validatesDeps M}
    (order : list (string * depGroup) → list (string * depGroup))
    (uuid : string) (stopOnFailure : option nat)
    (sch : Schedule) (wf : WorkflowMap) (start : bool) (s : scheduler)
  : option task * list string * scheduler :=
  match validateGroups (order (map_to_list (groupByTarget wf))) (managers s) with
  | (_ :: _) as errs => (None, errs, s)
  | [] =>
      match tasks s !! uuid with
      | Some _ => (None, [ErrTaskAlreadyExists], s)
      | None =>
          let t := newTask uuid sch wf stopOnFailure in
          let s1 := {| tasks := <[uuid := t]> (tasks s); managers := managers s;
                       calls := calls s; events := events s; tickers := tickers s |} in
          if start then
            let '(errs, s2) := StartTask order uuid s1 in
            (tasks s2 !! uuid, errs, s2)
          else (Some t, [], s1)
      end
  end.

(** Modelled from the spec: the requests a scheduler serves and the ends of
    firings its tasks report. *)
Inductive request : Type :=
| DoCreate (uuid : string) (stopOnFailure : option nat) (sch : Schedule) (wf : WorkflowMap)
    (start : bool)
| DoStart (id : string)
| DoStop (id : string)
| DoRemove (id : string)
| DoEnable (id : string)
| DoFire (id : string) (o : firing).

Definition serve `{!validatesDeps M}
    (order : list (string * depGroup) → list (string * depGroup))
    (s : scheduler) (r : request) : scheduler :=
  match r with
  | DoCreate uuid stopOnFailure sch wf start =>
      (CreateTask order uuid stopOnFailure sch wf start s).2
  | DoStart id => (StartTask order id s).2
  | DoStop id => (StopTask order id s).2
  | DoRemove id => (RemoveTask order id s).2
  | DoEnable id => (EnableTask id s).2
  | DoFire id o => Fire order id o s
  end.

Definition serveAll `{!validatesDeps M}
    (order : list (string * depGroup) → list (string * depGroup))
    (s : scheduler) (rs : list request) : scheduler :=
  fold_left (serve order) rs s.

(** Modelled from the spec: [New(cfg)] followed by [SetMetricManager]: an
    empty table over the managers at hand. *)
Definition New (mgrs : gmap string M) : scheduler :=
  {| tasks := ∅; managers := mgrs; calls := []; events := []; tickers := ∅ |}.

End WithManagers.

Arguments outcomeOf M : clear implicits.
Arguments scheduler M : clear implicits.

(** *** The handler of the workflow test *)

(** [failHandler.HandleGomitEvent]: [respChan] is closed on a
    [TaskDisabledEvent]; closing a closed channel panics.  The state is
    whether [respChan] is closed. *)
Definition HandleGomitEvent (ev : Event) (respChanClosed : bool) : outcome bool :=
  match ev with
  | TaskDisabledEvent _ =>
      if respChanClosed then Panicked "close of closed channel" else Returned true
  | _ => Returned respChanClosed
  end.

(** *** Concrete runs *)

Definition asStored (l : list (string * depGroup)) : list (string * depGroup) := l.

Definition port1 : Z := 40001.
Definition remote1 : string := "127.0.0.1:" +:+ pretty port1.

(** The controls of the tests: mock2 and mock-file on [c1], passthru on
    [c2]. *)
Definition c1 : control :=
  {| loaded := [ {| TypeName := CollectorPluginType; PluginName := "mock"; Version := 2 |};
                 {| TypeName := PublisherPluginType; PluginName := "mock-file"; Version := 3 |} ];
     catalogue := [("/intel/mock/foo", 2); ("/intel/mock/bar", 2)];
     subscriptions := ∅ |}.
Definition c2 : control :=
  {| loaded := [ {| TypeName := ProcessorPluginType; PluginName := "passthru"; Version := 1 |} ];
     catalogue := [];
     subscriptions := ∅ |}.

Definition taskID0 : string := "c0ffee00-0000-4000-8000-000000000001".

(** The scheduler of the workflow tests: [c1] is the local manager, [c2]
    listens on [port1]. *)
Definition twoControls : gmap string control := <[remote1 := c2]> {[ "" := c1 ]}.

(** The last workflow test: the task is created and started, then its
    firings fail. *)
Definition failedFiring : request :=
  DoFire taskID0 (FiringFailed (ProcessErrorEvent "connection refused") "connection refused").
Definition startedThenTwoFailures : list request :=
  [ DoCreate taskID0 None (SimpleSchedule 100) (dsWFMap port1) true; failedFiring; failedFiring ].
Definition startedThenThreeFailures : list request :=
  startedThenTwoFailures ++ [failedFiring].

End scheduler.

(** ** core and mgmt/rest/rbody, as the handlers use them *)
Module core.

(** The value of a metric. *)
Inductive MetricData : Type :=
| IntData (n : Z)
| TextData (s : string)
| NoData.

(** [core.Metric] by what its four methods answer; [Namespace] is the
    namespace already rendered by [String()]. *)
Record Metric : Type := {
  Namespace : string;
  Data : MetricData;
  Timestamp : Z;
  Tags : gmap string string
}.

End core.

Module rbody.

(** The event types the task handlers send. *)
Inductive StreamedEventType : Type :=
| TaskWatchStreamOpen
| TaskWatchMetricEvent
| TaskWatchTaskDisabled
| TaskWatchTaskStarted
| TaskWatchTaskStopped.

Record StreamedMetric : Type := {
  Namespace : string;
  Data : core.MetricData;
  Timestamp : Z;
  Tags : gmap string string
}.

Record StreamedTaskEvent : Type := {
  EventType : StreamedEventType;
  Message : string;
  Event : list StreamedMetric
}.

End rbody.

(** ** mgmt/rest: the task handlers *)
Module rest.
Import rbody.

Definition ErrStreamingUnsupported : string := "Streaming unsupported".
Definition ErrTaskNotFound : string := "Task not found".
Definition ErrTaskDisabledNotRunnable : string := "Task is disabled. Cannot be started".

(** [startTask]: the status of the response for the errors that
    [s.mt.StartTask(id)] returned; no error is a nil slice. *)
Definition startTask (errs : list string) : Z :=
  match errs with
  | [] => 200
  | e :: _ =>
      if Contains e ErrTaskNotFound then 404
      else if Contains e ErrTaskDisabledNotRunnable then 409
      else 500
  end.

(** [stopTask], likewise. *)
Definition stopTask (errs : list string) : Z :=
  match errs with
  | [] => 200
  | e :: _ => if Contains e ErrTaskNotFound then 404 else 500
  end.

(** [removeTask] and [enableTask]: the status for the error that
    [s.mt.RemoveTask(id)] or [s.mt.EnableTask(id)] returned. *)
Definition removeTask (err : option string) : Z :=
  match err with
  | None => 200
  | Some e => if Contains e ErrTaskNotFound then 404 else 500
  end.

Definition enableTask (err : option string) : Z :=
  match err with
  | None => 200
  | Some e => if Contains e ErrTaskNotFound then 404 else 500
  end.

(** *** TaskWatchHandler *)

(** What each method sends on [t.mChan]. *)
Definition CatchCollection (m : list core.Metric) : StreamedTaskEvent :=
  {| EventType := TaskWatchMetricEvent;
     Message := "";
     Event := map (λ mi, {| Namespace := core.Namespace mi;
                            Data := core.Data mi;
                            Timestamp := core.Timestamp mi;
                            Tags := core.Tags mi |}) m |}.

Definition CatchTaskStarted : StreamedTaskEvent :=
  {| EventType := TaskWatchTaskStarted; Message := ""; Event := [] |}.

Definition CatchTaskStopped : StreamedTaskEvent :=
  {| EventType := TaskWatchTaskStopped; Message := ""; Event := [] |}.

Definition CatchTaskDisabled (why : string) : StreamedTaskEvent :=
  {| EventType := TaskWatchTaskDisabled; Message := why; Event := [] |}.

(** A call of one of the four methods of the handler. *)
Inductive catch : Type :=
| Collection (m : list core.Metric)
| TaskStarted
| TaskStopped
| TaskDisabled (why : string).

Definition sent (c : catch) : StreamedTaskEvent :=
  match c with
  | Collection m => CatchCollection m
  | TaskStarted => CatchTaskStarted
  | TaskStopped => CatchTaskStopped
  | TaskDisabled why => CatchTaskDisabled why
  end.

(** Modelled from the spec: the event variant of the wire surface (6) that
    an event on the stream stands for; the opening of the stream is none of
    them. *)
Definition variantOf (e : StreamedTaskEvent) : option scheduler.Event :=
  match EventType e with
  | TaskWatchStreamOpen => None
  | TaskWatchMetricEvent => Some scheduler.MetricsCollectedEvent
  | TaskWatchTaskDisabled => Some (scheduler.TaskDisabledEvent (Message e))
  | TaskWatchTaskStarted => Some scheduler.TaskStartedEvent
  | TaskWatchTaskStopped => Some scheduler.TaskStoppedEvent
  end.

(** *** watchTask *)

(** A watch from the moment its stream is open: whether the handler is
    still in the scheduler's collection for the task, whether [watchTask]
    is still in its [select] loop, the calls of [tc.Close()], the events
    written to the response and the events handed to the handler (both
    latest first), the end-of-watch bodies responded, and whether a
    send on [mChan] found nobody receiving. *)
Record watch : Type := {
  registered : bool;
  selecting : bool;
  closes : nat;
  written : list StreamedTaskEvent;
  caught : list StreamedTaskEvent;
  ended : nat;
  stuck : bool
}.

(** Modelled from the spec: [tc.Close()], the cancel handle of
    [WatchTask]: the handler leaves the collection of the task. *)
Definition Close (w : watch) : watch :=
  {| registered := false; selecting := selecting w; closes := S (closes w);
     written := written w; caught := caught w; ended := ended w; stuck := stuck w |}.

(** [fmt.Fprintf(w, "data: %s\n\n", e.ToJSON())]. *)
Definition write (e : StreamedTaskEvent) (w : watch) : watch :=
  {| registered := registered w; selecting := selecting w; closes := closes w;
     written := e :: written w; caught := caught w; ended := ended w; stuck := stuck w |}.

(** [respond(200, &rbody.ScheduledTaskWatchingEnded{}, w)]. *)
Definition respondEnded (w : watch) : watch :=
  {| registered := registered w; selecting := selecting w; closes := closes w;
     written := written w; caught := caught w; ended := S (ended w); stuck := stuck w |}.

(** [return] out of the loop. *)
Definition leave (w : watch) : watch :=
  {| registered := registered w; selecting := false; closes := closes w;
     written := written w; caught := caught w; ended := ended w; stuck := stuck w |}.

(** The case a [select] of the loop takes. *)
Inductive selected : Type :=
| FromMChan (e : StreamedTaskEvent)
| CloseNotified
| Killed.

(** One round of the [for { select { ... } }] of [watchTask].  The case of
    a disabled or stopped task writes, closes the watcher and responds, and
    has no [return]: the loop goes on.  (The flushes, one of them timed,
    are left out.) *)
Definition round (c : selected) (w : watch) : watch :=
  match c with
  | FromMChan e =>
      match EventType e with
      | TaskWatchMetricEvent | TaskWatchTaskStarted => write e w
      | TaskWatchTaskDisabled | TaskWatchTaskStopped => respondEnded (Close (write e w))
      | TaskWatchStreamOpen => w
      end
  | CloseNotified => leave (respondEnded (Close w))
  | Killed => leave (respondEnded (Close w))
  end.

(** [watchTask] up to the loop: the answer when [s.mt.WatchTask] fails or
    the writer cannot flush, and otherwise the watch with the opening event
    written. *)
Definition watchTask (err1 : option string) (flusher : bool) : Z + watch :=
  match err1 with
  | Some e => if Contains e ErrTaskNotFound then inl 404 else inl 500
  | None =>
      if flusher then
        inr {| registered := true; selecting := true; closes := 0;
               written := [ {| EventType := TaskWatchStreamOpen; Message := "Stream opened";
                               Event := [] |} ];
               caught := []; ended := 0; stuck := false |}
      else inl 500
  end.

(** What can happen to an open watch: the task has an event for its
    watchers, the client goes away, the server is shut down. *)
Inductive happening : Type :=
| TaskEvent (c : catch)
| ClientGone
| ServerKilled.

(** Modelled from the spec: the event bus hands an event of the task to the
    handlers in its collection (4.I).  The handler sends on the unbuffered
    [mChan], which the loop receives from while it selects. *)
Definition happen (w : watch) (h : happening) : watch :=
  match h with
  | TaskEvent c =>
      if registered w then
        if selecting w then
          round (FromMChan (sent c))
            {| registered := registered w; selecting := selecting w; closes := closes w;
               written := written w; caught := sent c :: caught w; ended := ended w;
               stuck := stuck w |}
        else
          {| registered := registered w; selecting := selecting w; closes := closes w;
             written := written w; caught := caught w; ended := ended w; stuck := true |}
      else w
  | ClientGone => if selecting w then round CloseNotified w else w
  | ServerKilled => if selecting w then round Killed w else w
  end.

Definition happenAll (w : watch) (hs : list happening) : watch := fold_left happen hs w.

(** The watch of a request that found its task and can stream. *)
Definition opened : watch :=
  {| registered := true; selecting := true; closes := 0;
     written := [ {| EventType := TaskWatchStreamOpen; Message := "Stream opened"; Event := [] |} ];
     caught := []; ended := 0; stuck := false |}.

(** *** Concrete runs *)

Definition fooMetric : core.Metric :=
  {| core.Namespace := "/intel/mock/foo"; core.Data := core.IntData 42;
     core.Timestamp := 1467000000; core.Tags := {[ "plugin_running_on" := "host1" ]} |}.

(** S6: started, one collection, stopped, then the client cancels and the
    task is started again. *)
Definition watcherLifecycle : list happening :=
  [ TaskEvent TaskStarted; TaskEvent (Collection [fooMetric]); TaskEvent TaskStopped ].
Definition afterwards : list happening :=
  [ ClientGone; TaskEvent TaskStarted; TaskEvent (Collection [fooMetric]) ].

End rest.

(** * Properties *)

(** ** Strings *)
Section StringFacts.

Lemma prefix_append (s q : string) : String.prefix s (s +:+ q) = true.
Proof.
  induction s as [|a s IH]; [by destruct q|].
  change (String.prefix (String a s) (String a (s +:+ q)) = true).
  simpl. rewrite IH. by destruct (ascii_dec a a).
Qed.

Lemma Contains_unfold (s substr : string) :
  Contains s substr
  = String.prefix substr s ||
    match s with
    | EmptyString => false
    | String _ s' => Contains s' substr
    end.
Proof. by destruct s. Qed.

Lemma Contains_prefix (s q : string) : Contains (s +:+ q) s = true.
Proof. by rewrite Contains_unfold, prefix_append. Qed.

Lemma Contains_infix (p s q : string) : Contains (p +:+ s +:+ q) s = true.
Proof.
  induction p as [|a p IH].
  - exact (Contains_prefix s q).
  - change (Contains (String a (p +:+ s +:+ q)) s = true).
    rewrite Contains_unfold, IH. apply orb_true_r.
Qed.

End StringFacts.

(** ** pkg/aci *)
Section AciFacts.
Import aci.

(** [p] lies strictly below [dir]. *)
Definition strictlyUnder (dir p : path) : Prop :=
  ∃ suffix : list string, suffix ≠ [] ∧ p = dir ++ suffix.

(** Everything below [dir] is a directory or a regular file of mode 0755. *)
Definition dirsAndFiles755 (dir : path) (fs : FS) : Prop :=
  ∀ (p : path) (n : node), strictlyUnder dir p → fs !! p = Some n →
    (∃ m, n = Dir m) ∨ (∃ data, n = File fileMode data).

(** The error is that of a failed [io.Copy] or [os.Chmod]. *)
Definition copyOrChmodError (e : string) : bool :=
  String.prefix ErrCopyingFile e || String.prefix ErrChmod e.

(** Every object but the root sits in a directory. *)
Definition wellFormed (fs : FS) : Prop :=
  ∀ (p : path) (n : node), fs !! p = Some n → p ≠ [] →
    ∃ m, fs !! removelast p = Some (Dir m).

Lemma wellFormed_ancestor (fs : FS) (dir : path) :
  wellFormed fs →
  ∀ (suffix : list string) (n : node), suffix ≠ [] → fs !! (dir ++ suffix) = Some n →
    ∃ m, fs !! dir = Some (Dir m).
Proof.
  intros Hwf suffix. induction suffix as [|c s IH] using rev_ind; intros n Hne Hp.
  - congruence.
  - destruct (Hwf _ _ Hp) as [m Hm].
    + destruct dir; destruct s; discriminate.
    + rewrite app_assoc, removelast_last in Hm.
      destruct s as [|c' s'].
      * rewrite app_nil_r in Hm. eauto.
      * eapply IH; [discriminate | exact Hm].
Qed.

Lemma TempDir_fresh (env : Env) (fs fs0 : FS) (dir : path) :
  wellFormed fs → TempDir env fs = (fs0, (dir, None)) → dirsAndFiles755 dir fs0.
Proof.
  unfold TempDir. intros Hwf H.
  destruct (fs !! ["tmp"]) as [[?|?]|] eqn:Etmp; try discriminate.
  destruct (fs !! ["tmp"; tempName env]) eqn:Edir; try discriminate.
  injection H as <- <-.
  intros p n [suffix [Hne ->]] Hp.
  rewrite lookup_insert_ne in Hp.
  - destruct (wellFormed_ancestor fs _ Hwf suffix n Hne Hp) as [m Hm]. congruence.
  - intros Heq. apply Hne. apply (app_inv_head ["tmp"; tempName env]).
    rewrite app_nil_r. symmetry. exact Heq.
Qed.

Lemma mkdirAllFrom_keeps (env : Env) (perm : Z) (dir : path) (rest : list string) :
  ∀ (base : path) (fs fs' : FS) (r : option string),
    mkdirAllFrom env perm base rest fs = (fs', r) →
    dirsAndFiles755 dir fs → dirsAndFiles755 dir fs'.
Proof.
  induction rest as [|c rest IH]; intros base fs fs' r H Hinv; simpl in H.
  - by injection H as <- <-.
  - destruct (fs !! (base ++ [c])) as [[m d|m]|] eqn:E.
    + by injection H as <- <-.
    + eauto.
    + eapply IH; [exact H|].
      intros p n Hu Hp. destruct (decide (base ++ [c] = p)) as [Heq|Hne].
      * rewrite <- Heq, lookup_insert_eq in Hp. injection Hp as <-. eauto.
      * rewrite lookup_insert_ne in Hp by done. eauto.
Qed.

Lemma regular_entry_keeps (env : Env) (dir file : path) (b : body) (fs fs1 fs2 fs3 : FS) :
  osCreate env file fs = (fs1, None) →
  ioCopy file b fs1 = (fs2, None) →
  osChmod file fileMode fs2 = (fs3, None) →
  dirsAndFiles755 dir fs → dirsAndFiles755 dir fs3.
Proof.
  intros Hc Hw Hm Hinv.
  assert (Hfs1 : ∃ m, fs1 = <[file := File m ""]> fs).
  { unfold osCreate in Hc. destruct (fs !! file) as [[m d|m]|].
    - injection Hc as <-. eauto.
    - discriminate.
    - destruct file; [destruct (fs !! removelast []) as [[?|?]|]; discriminate|].
      destruct (fs !! removelast (s :: file)) as [[?|?]|]; try discriminate.
      injection Hc as <-. eauto. }
  destruct Hfs1 as [m ->].
  unfold ioCopy in Hw. destruct b as [data|err]; [|discriminate].
  rewrite lookup_insert_eq in Hw. injection Hw as <-.
  unfold osChmod in Hm. rewrite lookup_insert_eq in Hm. injection Hm as <-.
  intros p n Hu Hp. destruct (decide (file = p)) as [Heq|Hne].
  - rewrite <- Heq, lookup_insert_eq in Hp. injection Hp as <-. eauto.
  - rewrite !lookup_insert_ne in Hp by done. eauto.
Qed.

Lemma extractLoop_keeps (env : Env) (dir : path) (items : list tarItem) :
  ∀ (fs fs' : FS),
    extractLoop env dir items fs = (fs', None) →
    dirsAndFiles755 dir fs → dirsAndFiles755 dir fs'.
Proof.
  induction items as [|[hdr b|err] rest IH]; intros fs fs' H Hinv; simpl in H.
  - by injection H as <-.
  - destruct (Ascii.eqb (Typeflag hdr) TypeReg).
    + destruct (osCreate env (Join dir (Name hdr)) fs) as [fs1 [e|]] eqn:Ec; [discriminate|].
      destruct (ioCopy (Join dir (Name hdr)) b fs1) as [fs2 [e|]] eqn:Ew; [discriminate|].
      destruct (osChmod (Join dir (Name hdr)) fileMode fs2) as [fs3 [e|]] eqn:Em; [discriminate|].
      eapply IH; [exact H|]. eapply regular_entry_keeps; eauto.
    + destruct (Ascii.eqb (Typeflag hdr) TypeDir); [|discriminate].
      destruct (osMkdirAll env (Join dir (Name hdr)) fileMode fs) as [fs1 [e|]] eqn:Ed; [discriminate|].
      eapply IH; [exact H|]. eapply mkdirAllFrom_keeps; eauto.
  - discriminate.
Qed.

(** However the loop ends, but for a failed copy or chmod, it leaves
    directories and files of mode 0755 only. *)
Lemma extractLoop_keeps_unless (env : Env) (dir : path) (items : list tarItem) :
  ∀ (fs fs' : FS) (r : option string),
    extractLoop env dir items fs = (fs', r) →
    (∀ e, r = Some e → copyOrChmodError e = false) →
    dirsAndFiles755 dir fs → dirsAndFiles755 dir fs'.
Proof.
  induction items as [|[hdr b|err] rest IH]; intros fs fs' r H Hr Hinv; simpl in H.
  - by injection H as <- <-.
  - destruct (Ascii.eqb (Typeflag hdr) TypeReg).
    + destruct (osCreate env (Join dir (Name hdr)) fs) as [fs1 [e|]] eqn:Ec.
      { injection H as <- <-. unfold osCreate in Ec.
        destruct (fs !! Join dir (Name hdr)) as [[?|?]|]; [discriminate|by injection Ec as <-|].
        destruct (Join dir (Name hdr));
          destruct (fs !! removelast _) as [[?|?]|]; try discriminate; by injection Ec as <-. }
      destruct (ioCopy (Join dir (Name hdr)) b fs1) as [fs2 [e|]] eqn:Ew.
      { injection H as <- <-. exfalso.
        specialize (Hr _ eq_refl). unfold copyOrChmodError in Hr.
        rewrite prefix_append in Hr. discriminate. }
      destruct (osChmod (Join dir (Name hdr)) fileMode fs2) as [fs3 [e|]] eqn:Em.
      { injection H as <- <-. exfalso.
        specialize (Hr _ eq_refl). unfold copyOrChmodError in Hr.
        rewrite prefix_append in Hr. by rewrite orb_true_r in Hr. }
      eapply IH; [exact H|exact Hr|]. eapply regular_entry_keeps; eauto.
    + destruct (Ascii.eqb (Typeflag hdr) TypeDir).
      * destruct (osMkdirAll env (Join dir (Name hdr)) fileMode fs) as [fs1 [e|]] eqn:Ed.
        { injection H as <- <-. eapply mkdirAllFrom_keeps; eauto. }
        eapply IH; [exact H|exact Hr|]. eapply mkdirAllFrom_keeps; eauto.
      * by injection H as <- <-.
  - by injection H as <- <-.
Qed.

Lemma extractLoop_reaches (env : Env) (dir : path) (hdr : Header) (b : body) (post : list tarItem) :
  Typeflag hdr ≠ TypeReg → Typeflag hdr ≠ TypeDir →
  ∀ (pre : list tarItem) (fs fs1 : FS),
    extractLoop env dir pre fs = (fs1, None) →
    extractLoop env dir (pre ++ Entry hdr b :: post) fs
    = (fs1, Some (ErrUntar +:+ ": " +:+ Name hdr)).
Proof.
  intros Hreg Hdir. apply Ascii.eqb_neq in Hreg, Hdir.
  induction pre as [|[h c|err] pre IH]; intros fs fs1 H; simpl in *.
  - injection H as <-. by rewrite Hreg, Hdir.
  - destruct (Ascii.eqb (Typeflag h) TypeReg).
    + destruct (osCreate env (Join dir (Name h)) fs) as [fs2 [e|]]; [discriminate|].
      destruct (ioCopy (Join dir (Name h)) c fs2) as [fs3 [e|]]; [discriminate|].
      destruct (osChmod (Join dir (Name h)) fileMode fs3) as [fs4 [e|]]; [discriminate|].
      eauto.
    + destruct (Ascii.eqb (Typeflag h) TypeDir); [|discriminate].
      destruct (osMkdirAll env (Join dir (Name h)) fileMode fs) as [fs2 [e|]]; [discriminate|].
      eauto.
  - discriminate.
Qed.

Lemma extractLoop_refuses (env : Env) (dir : path) (hdr : Header) (b : body) (post : list tarItem) :
  Typeflag hdr ≠ TypeReg → Typeflag hdr ≠ TypeDir →
  ∀ (pre : list tarItem) (fs : FS),
    (extractLoop env dir (pre ++ Entry hdr b :: post) fs).2 ≠ None.
Proof.
  intros Hreg Hdir. apply Ascii.eqb_neq in Hreg, Hdir.
  induction pre as [|[h c|err] pre IH]; intros fs; simpl.
  - by rewrite Hreg, Hdir.
  - destruct (Ascii.eqb (Typeflag h) TypeReg).
    + destruct (osCreate env (Join dir (Name h)) fs) as [fs2 [e|]]; [done|].
      destruct (ioCopy (Join dir (Name h)) c fs2) as [fs3 [e|]]; [done|].
      destruct (osChmod (Join dir (Name h)) fileMode fs3) as [fs4 [e|]]; [done|].
      apply IH.
    + destruct (Ascii.eqb (Typeflag h) TypeDir); [|done].
      destruct (osMkdirAll env (Join dir (Name h)) fileMode fs) as [fs2 [e|]]; [done|].
      apply IH.
  - done.
Qed.

Lemma wellFormed_freshFS : wellFormed freshFS.
Proof.
  intros p n Hp Hne. unfold freshFS in *.
  destruct (decide (["tmp"] = p)) as [<-|H1].
  - exists 493. reflexivity.
  - rewrite lookup_insert_ne in Hp by done.
    destruct (decide ([] = p)) as [<-|H2]; [done|].
    rewrite lookup_insert_ne in Hp by done. by rewrite lookup_empty in Hp.
Qed.

(** C9, as amended.  An entry that is neither a regular file nor a directory
    makes [Extract] fail; the error is [ErrUntar] with the entry's name when
    the temporary directory could be made and every entry before it was
    extracted.  Then, and after a successful run, and whenever [Extract]
    returns anything but the error of a failed copy or chmod, everything
    below the extraction directory is a directory or a regular file of mode
    0755. *)
Theorem Extract_refuses_other_entries
    (env : Env) (fs : FS) (pre post : list tarItem) (hdr : Header) (b : body)
    (verdict : option string) :
  wellFormed fs →
  Typeflag hdr ≠ TypeReg → Typeflag hdr ≠ TypeDir →
  (∃ (fs' : FS) (err : string),
      Extract env (Image (pre ++ Entry hdr b :: post) verdict) fs
      = Returned (fs', ("", Some err)) ∧
      ∀ (fs0 fs1 : FS) (dir : path),
        TempDir env fs = (fs0, (dir, None)) →
        extractLoop env dir pre fs0 = (fs1, None) →
        err = ErrUntar +:+ ": " +:+ Name hdr ∧ fs' = fs1 ∧ dirsAndFiles755 dir fs') ∧
  (∀ (items : list tarItem) (fs' : FS) (d : string),
      Extract env (Image items verdict) fs = Returned (fs', (d, None)) →
      d = pathString ["tmp"; tempName env] ∧
      dirsAndFiles755 ["tmp"; tempName env] fs') ∧
  (∀ (items : list tarItem) (fs0 fs' : FS) (dir : path) (d : string) (r : option string),
      TempDir env fs = (fs0, (dir, None)) →
      Extract env (Image items verdict) fs = Returned (fs', (d, r)) →
      (∀ e, r = Some e → copyOrChmodError e = false) →
      dirsAndFiles755 dir fs').
Proof.
  intros Hwf Hreg Hdir. split_and!.
  - unfold Extract. simpl.
    destruct (TempDir env fs) as [fs0 [dir [e|]]] eqn:Et.
    + exists fs0, e. split; [done|]. intros ??? [=].
    + pose proof (extractLoop_refuses env dir hdr b post Hreg Hdir pre fs0) as Hno.
      destruct (extractLoop env dir (pre ++ Entry hdr b :: post) fs0) as [fs1 [e|]] eqn:El;
        [|done].
      exists fs1, e. split; [done|].
      intros fs0' fs1' dir' [= <- <-] Hpre.
      rewrite (extractLoop_reaches env dir hdr b post Hreg Hdir pre fs0 fs1' Hpre) in El.
      injection El as <- <-. split_and!; [done..|].
      eapply extractLoop_keeps; [exact Hpre|]. by eapply TempDir_fresh.
  - intros items fs' d H. unfold Extract in H. simpl in H.
    destruct (TempDir env fs) as [fs0 [dir [e|]]] eqn:Et; [discriminate|].
    destruct (extractLoop env dir items fs0) as [fs1 [e|]] eqn:El; [discriminate|].
    injection H as <- <-.
    assert (dir = ["tmp"; tempName env]) as ->.
    { unfold TempDir in Et.
      destruct (fs !! ["tmp"]) as [[?|?]|]; try discriminate;
      destruct (fs !! ["tmp"; tempName env]); try discriminate. by injection Et. }
    split; [done|]. eapply extractLoop_keeps; [exact El|]. by eapply TempDir_fresh.
  - intros items fs0 fs' dir d r Et H Hr. unfold Extract in H. simpl in H.
    rewrite Et in H.
    destruct (extractLoop env dir items fs0) as [fs1 r1] eqn:El.
    assert (Hsame : fs' = fs1 ∧ r = r1) by (destruct r1; by injection H as <- <- <-).
    destruct Hsame as [-> ->].
    eapply (extractLoop_keeps_unless env dir items fs0 fs1 r1 El); [exact Hr|].
    by eapply TempDir_fresh.
Qed.

(** The amended C9 at the archive with a directory, a file in it and a
    link. *)
Lemma Extract_refuses_other_entries_witness :
  wellFormed freshFS ∧
  ∃ (fs' : FS) (err : string),
    Extract env022 dirFileLink freshFS = Returned (fs', ("", Some err)) ∧
    err = "Error untarring file: rootfs/link" ∧
    dirsAndFiles755 ["tmp"; "aci0"] fs'.
Proof.
  split; [exact wellFormed_freshFS|].
  destruct (Extract_refuses_other_entries env022 freshFS
              [ Entry {| Name := "rootfs"; Typeflag := TypeDir |} (Bytes "");
                Entry {| Name := "rootfs/plugin"; Typeflag := TypeReg |} (Bytes "ELF") ]
              [] {| Name := "rootfs/link"; Typeflag := TypeSymlink |} (Bytes "") None
              wellFormed_freshFS ltac:(discriminate) ltac:(discriminate))
    as [[fs' [err [Hrun Hreach]]] _].
  exists fs', err. split; [exact Hrun|].
  destruct (Hreach _ _ _ eq_refl eq_refl) as (-> & _ & Hinv).
  split; [reflexivity | exact Hinv].
Defined.

(** C9 as stated fails on three archives.  With a symbolic link followed
    by a character device, [Extract] returns [ErrUntar] for the link and
    never names the device, an entry that is neither a file nor a
    directory.  With a regular file in a directory the archive has no entry
    for, followed by a symbolic link, [Extract] returns the error of
    creating the file, not [ErrUntar] for the link.  With an archive cut off
    in the body of a regular file, [Extract] returns the copy error and
    leaves the file it had created below the extraction directory with mode
    0644, not 0755. *)
Lemma Extract_entries_counterexample :
  (let fs' := <[ ["tmp"; "aci0"] := Dir 448 ]> freshFS in
   let err := ErrUntar +:+ ": first" in
   Typeflag {| Name := "second"; Typeflag := TypeChar |} ≠ TypeReg ∧
   Typeflag {| Name := "second"; Typeflag := TypeChar |} ≠ TypeDir ∧
   Extract env022 twoLinks freshFS = Returned (fs', ("", Some err)) ∧
   err ≠ ErrUntar +:+ ": second" ∧ Contains err "second" = false) ∧
  (let fs' := <[ ["tmp"; "aci0"] := Dir 448 ]> freshFS in
   let err := ErrCreatingFile +:+ ": /tmp/aci0/rootfs/plugin" +:+ LF
              +:+ "no such file or directory" in
   Extract env022 fileWithoutDirThenLink freshFS = Returned (fs', ("", Some err)) ∧
   err ≠ ErrUntar +:+ ": link" ∧ Contains err "link" = false) ∧
  (let fs' := <[ ["tmp"; "aci0"; "rootfs.bin"] := File 420 "" ]>
                (<[ ["tmp"; "aci0"] := Dir 448 ]> freshFS) in
   let err := ErrCopyingFile +:+ ": /tmp/aci0/rootfs.bin" +:+ LF +:+ "unexpected EOF" in
   Extract env022 truncatedFile freshFS = Returned (fs', ("", Some err)) ∧
   fs' !! ["tmp"; "aci0"; "rootfs.bin"] = Some (File 420 "") ∧
   ¬ dirsAndFiles755 ["tmp"; "aci0"] fs').
Proof.
  split_and!.
  - intros fs' err. split; [discriminate|]. split; [discriminate|].
    split; [vm_compute; reflexivity|]. split; [discriminate|]. vm_compute. reflexivity.
  - intros fs' err.
    split; [vm_compute; reflexivity|]. split; [discriminate|]. vm_compute. reflexivity.
  - intros fs' err.
    assert (Hl : fs' !! ["tmp"; "aci0"; "rootfs.bin"] = Some (File 420 ""))
      by apply lookup_insert_eq.
    split; [vm_compute; reflexivity|].
    split; [exact Hl|].
    intros Hinv.
    destruct (Hinv ["tmp"; "aci0"; "rootfs.bin"] (File 420 "")) as [[m Hm]|[d Hd]].
    + exists ["rootfs.bin"]. done.
    + exact Hl.
    + discriminate.
    + discriminate.
Qed.

(** C10 fails on the code: when [NewCompressedTarReader] returns an error,
    the [Close] deferred before the check runs on the nil reader and
    [Validate] panics instead of returning the error. *)
Theorem Validate_panics_on_reader_error (err : string) :
  Validate (NotAnImage err) = Panicked nilDereference.
Proof. reflexivity. Qed.

(** [Extract] checks the error before it defers [Close] and returns it. *)
Lemma Extract_returns_reader_error (env : Env) (err : string) (fs : FS) :
  Extract env (NotAnImage err) fs = Returned (fs, ("", Some err)).
Proof. reflexivity. Qed.

End AciFacts.

(** ** control *)
Section ControlFacts.
Import control.
Context `{Decoders}.

(** The fields of [Config], each with the key of its case. *)
Inductive field : Type :=
| FMaxRunningPlugins | FPluginLoadTimeout | FPluginTrust | FAutoDiscoverPath
| FKeyringPaths | FCacheExpiration | FPlugins | FListenAddr | FListenPort.

Definition keyOf (f : field) : string :=
  match f with
  | FMaxRunningPlugins => "max_running_plugins"
  | FPluginLoadTimeout => "plugin_load_timeout"
  | FPluginTrust => "plugin_trust_level"
  | FAutoDiscoverPath => "auto_discover_path"
  | FKeyringPaths => "keyring_paths"
  | FCacheExpiration => "cache_expiration"
  | FPlugins => "plugins"
  | FListenAddr => "listen_addr"
  | FListenPort => "listen_port"
  end.

(** The field has the same value in both configurations. *)
Definition sameField (f : field) (c c' : Config) : Prop :=
  match f with
  | FMaxRunningPlugins => MaxRunningPlugins c' = MaxRunningPlugins c
  | FPluginLoadTimeout => PluginLoadTimeout c' = PluginLoadTimeout c
  | FPluginTrust => PluginTrust c' = PluginTrust c
  | FAutoDiscoverPath => AutoDiscoverPath c' = AutoDiscoverPath c
  | FKeyringPaths => KeyringPaths c' = KeyringPaths c
  | FCacheExpiration => CacheExpiration c' = CacheExpiration c
  | FPlugins => Plugins c' = Plugins c
  | FListenAddr => ListenAddr c' = ListenAddr c
  | FListenPort => ListenPort c' = ListenPort c
  end.

(** Walks through the comparisons of [switchKey] for the key [k]. *)
Ltac walkSwitch k :=
  unfold switchKey;
  repeat match goal with
    | |- context [String.eqb k ?s] => destruct (String.eqb_spec k s)
    | _ : context [String.eqb k ?s] |- _ => destruct (String.eqb_spec k s)
    end.

(** Walks through the comparisons of [switchKey] and the answers of the
    decoders. *)
Ltac walkCases :=
  unfold switchKey;
  repeat match goal with
    | |- context [String.eqb ?k ?s] =>
        destruct (String.eqb_spec k s); try congruence
    end;
  repeat match goal with
    | |- context [match ?d with Ok _ => _ | Err _ => _ end] => destruct d eqn:?
    end;
  simpl in *; try congruence; try done.

Lemma switchKey_default (k : string) (v : jsonValue) (c : Config) :
  k ∉ recognisedKeys → switchKey k v c = (c, Some (unrecognizedKey k)).
Proof.
  intros Hk. walkSwitch k; try reflexivity;
    exfalso; apply Hk; subst k; unfold recognisedKeys; repeat constructor.
Qed.

Lemma switchKey_nil_recognised (k : string) (v : jsonValue) (c : Config) :
  (switchKey k v c).2 = None → k ∈ recognisedKeys.
Proof.
  intros Hnil. revert Hnil. walkSwitch k; intros Hnil;
    try (subst k; unfold recognisedKeys; repeat constructor).
  discriminate.
Qed.

Lemma sameField_refl (f : field) (c : Config) : sameField f c c.
Proof. by destruct f. Qed.

Lemma sameField_trans (f : field) (c1 c2 c3 : Config) :
  sameField f c1 c2 → sameField f c2 c3 → sameField f c1 c3.
Proof. destruct f; simpl; congruence. Qed.

(** A member leaves the fields of the other keys alone. *)
Lemma switchKey_frame (f : field) (k : string) (v : jsonValue) (c : Config) :
  k ≠ keyOf f → sameField f c (switchKey k v c).1.
Proof. intros Hk. destruct f; simpl in Hk; walkCases. Qed.

(** Whether a member is refused, and with which error, does not depend on
    a member with another key having been decoded before it. *)
Lemma switchKey_error_independent (k1 k2 : string) (v1 v2 : jsonValue) (c : Config) :
  k1 ≠ k2 →
  (switchKey k2 v2 (switchKey k1 v1 c).1).2 = (switchKey k2 v2 c).2.
Proof.
  intros Hne.
  assert (Hframe : ∀ f, k1 ≠ keyOf f → sameField f c (switchKey k1 v1 c).1)
    by (intros f; apply switchKey_frame).
  set (c1 := (switchKey k1 v1 c).1) in *.
  unfold switchKey.
  repeat match goal with
    | |- context [String.eqb k2 ?s] => destruct (String.eqb_spec k2 s)
    end; try reflexivity; subst k2.
  - rewrite (Hframe FMaxRunningPlugins Hne). by destruct (unmarshalInt _ _).
  - rewrite (Hframe FPluginLoadTimeout Hne). by destruct (unmarshalInt _ _).
  - rewrite (Hframe FPluginTrust Hne). by destruct (unmarshalInt _ _).
  - rewrite (Hframe FAutoDiscoverPath Hne). by destruct (unmarshalString _ _).
  - rewrite (Hframe FKeyringPaths Hne). by destruct (unmarshalString _ _).
  - rewrite (Hframe FCacheExpiration Hne). by destruct (unmarshalDuration _ _).
  - rewrite (Hframe FPlugins Hne). by destruct (unmarshalPlugins _ _).
  - rewrite (Hframe FListenAddr Hne). by destruct (unmarshalString _ _).
  - rewrite (Hframe FListenPort Hne). by destruct (unmarshalInt _ _).
Qed.

(** A walk over members with keys that differ pairwise ends without error
    exactly when each member is accepted by the configuration the walk
    starts from. *)
Lemma rangeLoop_accepts (entries : list (string * jsonValue)) :
  NoDup entries.*1 →
  ∀ c : Config,
    (rangeLoop entries c).2 = None ↔
    ∀ (k : string) (v : jsonValue), (k, v) ∈ entries → (switchKey k v c).2 = None.
Proof.
  induction entries as [|[k0 v0] rest IH]; intros Hnd c.
  - split; [|done]. intros _ k v Hin. by apply elem_of_nil in Hin.
  - apply NoDup_cons in Hnd as [Hfresh Hnd]. simpl in Hfresh.
    assert (Hstep : ∀ k v, (k, v) ∈ rest →
              (switchKey k v (switchKey k0 v0 c).1).2 = (switchKey k v c).2).
    { intros k v Hin. apply switchKey_error_independent. intros ->.
      apply Hfresh. apply list_elem_of_fmap. by exists (k, v). }
    simpl. split.
    + intros Hnil k v Hin.
      destruct (switchKey k0 v0 c) as [c' [e|]] eqn:Es; [discriminate|]. simpl in Hstep.
      apply elem_of_cons in Hin as [[= -> ->]|Hin]; [by rewrite Es|].
      rewrite <- Hstep by done. by apply (IH Hnd c').
    + intros Hall. pose proof (Hall k0 v0 ltac:(left)) as H0.
      destruct (switchKey k0 v0 c) as [c' [e|]] eqn:Es; [discriminate|]. simpl in Hstep.
      apply (IH Hnd c'). intros k v Hin. rewrite Hstep by done. apply Hall. by right.
Qed.

(** A walk that meets a key outside the recognised set, every other member
    being accepted by the configuration it starts from, returns the error
    of that key. *)
Lemma rangeLoop_names_offender
    (entries : list (string * jsonValue)) (k : string) (v : jsonValue) :
  NoDup entries.*1 →
  (k, v) ∈ entries → k ∉ recognisedKeys →
  ∀ c : Config,
    (∀ (k' : string) (v' : jsonValue), (k', v') ∈ entries → k' ≠ k →
       (switchKey k' v' c).2 = None) →
    (rangeLoop entries c).2 = Some (unrecognizedKey k).
Proof.
  intros Hnd Hin Hk. induction entries as [|[k0 v0] rest IH]; intros c Hothers.
  - by apply elem_of_nil in Hin.
  - apply NoDup_cons in Hnd as [Hfresh Hnd]. simpl in Hfresh. simpl.
    destruct (decide (k0 = k)) as [->|Hne].
    + by rewrite switchKey_default.
    + pose proof (Hothers k0 v0 ltac:(left) Hne) as Hok.
      assert (Hstep : ∀ k' v', (k', v') ∈ rest →
                (switchKey k' v' (switchKey k0 v0 c).1).2 = (switchKey k' v' c).2).
      { intros k' v' Hin'. apply switchKey_error_independent. intros ->.
        apply Hfresh. apply list_elem_of_fmap. by exists (k', v'). }
      destruct (switchKey k0 v0 c) as [c' [e|]]; [discriminate|]. simpl in Hstep.
      apply elem_of_cons in Hin as [[= ? ?]|Hin]; [congruence|].
      apply (IH Hnd Hin). intros k' v' Hin' Hne'.
      rewrite Hstep by done. apply Hothers; [by right|done].
Qed.

(** C8, as amended.  When the object has a key outside the recognised set,
    [UnmarshalJSON] returns a non-nil error, whatever the order of the
    walk; the error names that key when every other member is recognised
    and parses over the configuration handed in; and nil is returned
    exactly when every key is recognised and its value parses over that
    configuration. *)
Theorem UnmarshalJSON_unrecognised_key
    (order : list (string * jsonValue) → list (string * jsonValue))
    (data : jsonValue) (t : gmap string jsonValue) (c : Config) :
  (∀ l, order l ≡ₚ l) →
  unmarshalMap data = Ok t →
  (∀ k : string, k ∈ dom t → k ∉ recognisedKeys →
     (∃ e, (UnmarshalJSON order data c).2 = Some e) ∧
     ((∀ (k' : string) (v' : jsonValue), t !! k' = Some v' → k' ≠ k →
         (switchKey k' v' c).2 = None) →
      (UnmarshalJSON order data c).2 = Some (unrecognizedKey k))) ∧
  ((UnmarshalJSON order data c).2 = None ↔
     ∀ (k : string) (v : jsonValue), t !! k = Some v →
       k ∈ recognisedKeys ∧ (switchKey k v c).2 = None).
Proof.
  intros Hperm Hmap. unfold UnmarshalJSON. rewrite Hmap.
  assert (Hmem : ∀ k v, (k, v) ∈ order (map_to_list t) ↔ t !! k = Some v).
  { intros k v. rewrite (Hperm (map_to_list t)). apply elem_of_map_to_list. }
  assert (Hnd : NoDup (order (map_to_list t)).*1).
  { rewrite (Hperm (map_to_list t)). apply NoDup_fst_map_to_list. }
  pose proof (rangeLoop_accepts (order (map_to_list t)) Hnd c) as Hacc.
  split.
  - intros k Hdom Hk. apply elem_of_dom in Hdom as [v Hv]. split.
    + destruct ((rangeLoop (order (map_to_list t)) c).2) as [e|] eqn:E; [eauto|].
      exfalso. apply Hk. apply (switchKey_nil_recognised k v c).
      apply Hacc; [done|]. by apply Hmem.
    + intros Hothers. eapply rangeLoop_names_offender; [done|by apply Hmem|done|].
      intros k' v' Hin. apply Hothers. by apply Hmem.
  - rewrite Hacc. split.
    + intros Hall k v Hv. apply Hmem in Hv. pose proof (Hall k v Hv) as Hok.
      split; [|done]. by apply (switchKey_nil_recognised k v c).
    + intros Hall k v Hin. apply Hmem in Hin. by apply Hall.
Qed.

End ControlFacts.

Section ControlRuns.
Import control.

Lemma pluginsAndUnknownKey_map :
  unmarshalMap pluginsAndUnknownKey
  = Ok (<["cache_expiration" := JString "1s"]>
          (<["bogus" := JBool true]> (<["plugins" := JObject []]> ∅))).
Proof. reflexivity. Qed.

(** The amended C8 at [{"plugins": {}, "bogus": true,
    "cache_expiration": "1s"}], walked backwards over the default
    configuration. *)
Lemma UnmarshalJSON_unrecognised_key_witness :
  (∀ l, backwards l ≡ₚ l) ∧
  (UnmarshalJSON backwards pluginsAndUnknownKey defaultConfig).2
  = Some "Unrecognized key 'bogus' in global config file while parsing 'control'".
Proof.
  assert (Hperm : ∀ l, backwards l ≡ₚ l) by (intros l; apply reverse_Permutation).
  split; [exact Hperm|].
  destruct (UnmarshalJSON_unrecognised_key backwards pluginsAndUnknownKey _ defaultConfig
              Hperm pluginsAndUnknownKey_map) as [Hkey _].
  destruct (Hkey "bogus") as [_ Honly].
  - apply elem_of_dom. eexists. reflexivity.
  - unfold recognisedKeys. intros Hin.
    repeat (apply elem_of_cons in Hin as [Hin|Hin]; [discriminate|]).
    by apply elem_of_nil in Hin.
  - apply Honly. intros k' v' Hv Hne.
    destruct (decide (k' = "cache_expiration")) as [->|H1].
    { rewrite lookup_insert_eq in Hv. by injection Hv as <-. }
    rewrite lookup_insert_ne in Hv by done.
    rewrite lookup_insert_ne in Hv by done.
    destruct (decide (k' = "plugins")) as [->|H2].
    { rewrite lookup_insert_eq in Hv. by injection Hv as <-. }
    rewrite lookup_insert_ne in Hv by done. by rewrite lookup_empty in Hv.
Defined.

(** C8 as stated fails on [{"alpha": 1, "beta": 2}]: both keys are outside
    the recognised set, and in either order of the walk the error names one
    of them only.  On [{"bogus": 1, "max_running_plugins": "many"}] a walk
    that meets [max_running_plugins] first returns its parse error, which
    does not name [bogus]. *)
Lemma UnmarshalJSON_two_unknown_keys_counterexample :
  ("alpha" ∉ recognisedKeys) ∧ ("beta" ∉ recognisedKeys) ∧
  (∃ e, (UnmarshalJSON asStored twoUnknownKeys defaultConfig).2 = Some e ∧
        e ≠ unrecognizedKey "beta" ∧ Contains e "beta" = false) ∧
  (∃ e, (UnmarshalJSON backwards twoUnknownKeys defaultConfig).2 = Some e ∧
        e ≠ unrecognizedKey "alpha" ∧ Contains e "alpha" = false) ∧
  (∃ e, (UnmarshalJSON asStored bogusAndBadValue defaultConfig).2 = Some e ∧
        e ≠ unrecognizedKey "bogus" ∧ Contains e "bogus" = false).
Proof.
  assert (Hnot : ∀ k : string, (String.eqb k "max_running_plugins" = false) →
            String.eqb k "plugin_load_timeout" = false →
            String.eqb k "plugin_trust_level" = false →
            String.eqb k "auto_discover_path" = false →
            String.eqb k "keyring_paths" = false →
            String.eqb k "cache_expiration" = false →
            String.eqb k "plugins" = false →
            String.eqb k "listen_addr" = false →
            String.eqb k "listen_port" = false → k ∉ recognisedKeys).
  { intros k H1 H2 H3 H4 H5 H6 H7 H8 H9 Hin. unfold recognisedKeys in Hin.
    repeat (apply elem_of_cons in Hin as [->|Hin]; [discriminate|]).
    by apply elem_of_nil in Hin. }
  split; [by apply Hnot|]. split; [by apply Hnot|].
  split_and!; eexists; (split; [vm_compute; reflexivity|]); split;
    first [discriminate | vm_compute; reflexivity].
Qed.

End ControlRuns.
(** ** scheduler: the options of the work manager *)
Section FlagFacts.
Import scheduler.

(** C7.  For the queue size and the pool size of the work manager, a flag
    on the command line overrides the configuration file, the file
    overrides the environment variable [WORK_MANAGER_QUEUE_SIZE] or
    [WORK_MANAGER_POOL_SIZE], and the environment overrides the defaults,
    25 and 4. *)
Theorem work_manager_options_precedence (src : Sources) :
  (∀ v, commandLine src !! "work-manager-queue-size" = Some v → workManagerQueueSize src = v) ∧
  (commandLine src !! "work-manager-queue-size" = None →
     (∀ v, configFile src !! "work_manager_queue_size" = Some v → workManagerQueueSize src = v) ∧
     (configFile src !! "work_manager_queue_size" = None →
        (∀ v, environment src !! "WORK_MANAGER_QUEUE_SIZE" = Some v → workManagerQueueSize src = v) ∧
        (environment src !! "WORK_MANAGER_QUEUE_SIZE" = None → workManagerQueueSize src = 25))) ∧
  (∀ v, commandLine src !! "work-manager-pool-size" = Some v → workManagerPoolSize src = v) ∧
  (commandLine src !! "work-manager-pool-size" = None →
     (∀ v, configFile src !! "work_manager_pool_size" = Some v → workManagerPoolSize src = v) ∧
     (configFile src !! "work_manager_pool_size" = None →
        (∀ v, environment src !! "WORK_MANAGER_POOL_SIZE" = Some v → workManagerPoolSize src = v) ∧
        (environment src !! "WORK_MANAGER_POOL_SIZE" = None → workManagerPoolSize src = 4))).
Proof.
  unfold workManagerQueueSize, workManagerPoolSize, resolve. simpl.
  split_and!.
  - by intros v ->.
  - intros ->. split; [by intros v ->|]. intros ->. split; [by intros v ->|]. by intros ->.
  - by intros v ->.
  - intros ->. split; [by intros v ->|]. intros ->. split; [by intros v ->|]. by intros ->.
Qed.

(** C7 at a run with the three sources set for the queue and only the
    environment set for the pool. *)
Lemma work_manager_options_precedence_witness :
  let src := {| commandLine := {[ "work-manager-queue-size" := 100 ]};
                configFile := {[ "work_manager_queue_size" := 50 ]};
                environment := <[ "WORK_MANAGER_POOL_SIZE" := 8 ]>
                                 {[ "WORK_MANAGER_QUEUE_SIZE" := 75 ]} |} in
  workManagerQueueSize src = 100 ∧ workManagerPoolSize src = 8.
Proof.
  intros src.
  destruct (work_manager_options_precedence src) as (Hq & _ & _ & Hp).
  split.
  - apply Hq. reflexivity.
  - destruct (Hp eq_refl) as [_ Hfile]. destruct (Hfile eq_refl) as [Henv _].
    apply Henv. reflexivity.
Defined.

End FlagFacts.

(** ** scheduler: starting a task *)
Section TaskFacts.
Import scheduler.
Context {M : Type} `{!managesMetrics M} `{!validatesDeps M}.

(** C4.  [StartTask] on a Disabled task returns the
    [TaskDisabledNotRunnable] error and leaves the scheduler as it is, and
    the REST handler answers 409; an unknown id is answered 404; calls on
    the managers and a new ticker come only from a task that is Created or
    Stopped. *)
Theorem StartTask_refuses_disabled
    (order : list (string * depGroup) → list (string * depGroup))
    (id : string) (s : scheduler M) :
  (∀ t, tasks s !! id = Some t → state t = Disabled →
        StartTask order id s = ([ErrTaskDisabledNotRunnable], s) ∧
        rest.startTask (StartTask order id s).1 = 409) ∧
  (tasks s !! id = None →
        StartTask order id s = ([ErrTaskNotFound], s) ∧
        rest.startTask (StartTask order id s).1 = 404) ∧
  (∀ errs s', StartTask order id s = (errs, s') →
        calls s' ≠ calls s ∨ tickers s' ≠ tickers s ∨ tasks s' ≠ tasks s →
        ∃ t, tasks s !! id = Some t ∧ (state t = Created ∨ state t = Stopped)).
Proof.
  split_and!.
  - intros t Ht Hst. unfold StartTask. rewrite Ht, Hst. split; [done|]. by vm_compute.
  - intros Hnone. unfold StartTask. rewrite Hnone. split; [done|]. by vm_compute.
  - intros errs s' Hrun Hchanged. unfold StartTask in Hrun.
    destruct (tasks s !! id) as [t|] eqn:Ht.
    + exists t. split; [done|].
      destruct (state t); eauto; injection Hrun as <- <-;
        destruct Hchanged as [Hc|[Hc|Hc]]; by destruct Hc.
    + injection Hrun as <- <-. destruct Hchanged as [Hc|[Hc|Hc]]; by destruct Hc.
Qed.

End TaskFacts.

Section TaskRuns.
Import scheduler.

(** C4 at that task once it is Disabled. *)
Lemma StartTask_refuses_disabled_witness :
  let s := serveAll asStored (New twoControls) startedThenThreeFailures in
  StartTask asStored taskID0 s = (["Task is disabled. Cannot be started"], s) ∧
  rest.startTask (StartTask asStored taskID0 s).1 = 409.
Proof.
  intros s.
  destruct (StartTask_refuses_disabled asStored taskID0 s) as (Hdisabled & _).
  apply (Hdisabled {| ID := taskID0; workflow := dsWFMap port1; schedule := SimpleSchedule 100;
                      state := Disabled; hitCount := 0; missCount := 0; failedCount := 3;
                      consecutiveFailure := 3; threshold := 3 |}).
  - vm_compute. reflexivity.
  - reflexivity.
Defined.

End TaskRuns.
(** ** mgmt/rest: watching a task *)
Section WatchFacts.
Import rbody rest.

(** The events that end a watch. *)
Definition endsWatch (h : happening) : Prop :=
  h = ClientGone ∨ h = ServerKilled ∨ h = TaskEvent TaskStopped ∨
  ∃ why, h = TaskEvent (TaskDisabled why).

(** What holds of a watch from its opening on: a loop that has returned
    has closed the watcher, a watcher out of the collection was closed by a
    call of [Close], and no send on [mChan] was left without a receiver. *)
Definition watchOK (w : watch) : Prop :=
  (selecting w = false → registered w = false) ∧
  (registered w = false → (0 < closes w)%nat) ∧
  stuck w = false.

Lemma happen_watchOK (w : watch) (h : happening) : watchOK w → watchOK (happen w h).
Proof.
  destruct w as [reg sel cl wr ca en st]. unfold watchOK. simpl.
  intros (Hsel & Hreg & Hstuck).
  destruct h as [c| |]; simpl; destruct reg, sel; simpl; try destruct c; simpl;
    split_and!; intros; try done; try lia; auto.
Qed.

Lemma happenAll_watchOK (hs : list happening) :
  ∀ w, watchOK w → watchOK (happenAll w hs).
Proof.
  induction hs as [|h hs IH]; intros w Hw; simpl; [done|].
  apply IH. by apply happen_watchOK.
Qed.

Lemma happen_ends (w : watch) (h : happening) :
  watchOK w → endsWatch h → registered (happen w h) = false.
Proof.
  destruct w as [reg sel cl wr ca en st]. unfold watchOK. simpl.
  intros (Hsel & _ & _) Hend.
  destruct Hend as [->|[->|[->|[why ->]]]]; simpl; destruct reg, sel; simpl; auto.
Qed.

Lemma happen_closed (w : watch) (h : happening) :
  registered w = false →
  registered (happen w h) = false ∧ caught (happen w h) = caught w ∧
  written (happen w h) = written w.
Proof.
  destruct w as [reg sel cl wr ca en st]. simpl. intros ->.
  destruct h as [c| |]; simpl; destruct sel; simpl; done.
Qed.

Lemma happenAll_closed (hs : list happening) :
  ∀ w, registered w = false →
    registered (happenAll w hs) = false ∧ caught (happenAll w hs) = caught w ∧
    written (happenAll w hs) = written w.
Proof.
  induction hs as [|h hs IH]; intros w Hreg; simpl; [done|].
  destruct (happen_closed w h Hreg) as (Hr & Hc & Hw).
  destruct (IH (happen w h) Hr) as (Hr' & Hc' & Hw'). rewrite Hc', Hw'. done.
Qed.

(** C5.  Once a stopped or disabled task has been announced to an open
    watch, or its client has gone or the server is shut down, the watcher
    is closed and out of the scheduler's collection, and whatever happens
    afterwards no further event is handed to it or written to its
    stream. *)
Theorem watch_closed_after_end (before after : list happening) (h : happening) :
  endsWatch h →
  let w := happenAll opened (before ++ [h]) in
  registered w = false ∧ (0 < closes w)%nat ∧ stuck w = false ∧
  registered (happenAll w after) = false ∧
  caught (happenAll w after) = caught w ∧
  written (happenAll w after) = written w ∧
  stuck (happenAll w after) = false.
Proof.
  intros Hend w.
  assert (Hopened : watchOK opened) by (unfold watchOK; simpl; done).
  assert (Hbefore : watchOK (happenAll opened before)) by by apply happenAll_watchOK.
  assert (Hw : w = happen (happenAll opened before) h).
  { unfold w, happenAll. by rewrite fold_left_app. }
  assert (Hreg : registered w = false) by (rewrite Hw; by apply happen_ends).
  assert (Hok : watchOK w) by (rewrite Hw; by apply happen_watchOK).
  destruct (happenAll_closed after w Hreg) as (Hr & Hc & Hwr).
  destruct Hok as (_ & Hcl & Hst).
  destruct (happenAll_watchOK after w) as (_ & _ & Hst').
  { rewrite Hw. by apply happen_watchOK. }
  split_and!; auto.
Qed.

(** C5 at scenario S6: the task is started, collects, is stopped; then the
    client goes and the task is started again. *)
Lemma watch_closed_after_end_witness :
  endsWatch (TaskEvent TaskStopped) ∧
  let w := happenAll opened watcherLifecycle in
  registered w = false ∧
  caught (happenAll w afterwards) = caught w ∧
  EventType <$> caught w
  = [TaskWatchTaskStopped; TaskWatchMetricEvent; TaskWatchTaskStarted].
Proof.
  assert (Hend : endsWatch (TaskEvent TaskStopped)) by (right; right; by left).
  split; [exact Hend|].
  destruct (watch_closed_after_end
              [TaskEvent TaskStarted; TaskEvent (Collection [fooMetric])] afterwards
              (TaskEvent TaskStopped) Hend) as (Hreg & _ & _ & _ & Hcaught & _).
  split; [exact Hreg|]. split; [exact Hcaught|]. reflexivity.
Defined.

(** The case of a stopped or disabled task has no [return]: the loop still
    selects, and a client that goes afterwards has [Close] called a second
    time and the end of the watch responded again. *)
Lemma round_goes_on_after_stop :
  let w := happenAll opened watcherLifecycle in
  selecting w = true ∧ closes w = 1%nat ∧ ended w = 1%nat ∧
  closes (happen w ClientGone) = 2%nat ∧ ended (happen w ClientGone) = 2%nat.
Proof. by vm_compute. Qed.

End WatchFacts.

(** ** mgmt/rest: what the handler of a watcher sends *)
Section HandlerFacts.
Import rbody rest.

(** An event variant reaches a watcher when a method of its handler sends
    an event that stands for it. *)
Definition reachesWatcher (ev : scheduler.Event) : Prop :=
  ∃ c : catch, variantOf (sent c) = Some ev.

(** C6, as amended.  The event variants a watcher is sent are exactly
    [TaskStarted], [TaskStopped], [TaskDisabled(reason)] and
    [MetricsCollected]; [TaskEnabled] is not among them; a disabled task
    is announced with its reason, and a collection carries for each metric
    of the batch, in order, its namespace, data, timestamp and tags. *)
Theorem watcher_event_variants :
  (∀ ev : scheduler.Event,
     reachesWatcher ev ↔
     ev = scheduler.TaskStartedEvent ∨ ev = scheduler.TaskStoppedEvent ∨
     (∃ why, ev = scheduler.TaskDisabledEvent why) ∨
     ev = scheduler.MetricsCollectedEvent) ∧
  (∀ why, Message (CatchTaskDisabled why) = why) ∧
  (∀ (m : list core.Metric),
     length (Event (CatchCollection m)) = length m ∧
     ∀ (i : nat) (mi : core.Metric), m !! i = Some mi →
       Event (CatchCollection m) !! i
       = Some {| Namespace := core.Namespace mi; Data := core.Data mi;
                 Timestamp := core.Timestamp mi; Tags := core.Tags mi |}).
Proof.
  split_and!.
  - intros ev. split.
    + intros [c Hc]. destruct c as [m| | |why]; injection Hc as <-; eauto.
    + intros [-> | [-> | [[why ->] | ->]]].
      * by exists TaskStarted.
      * by exists TaskStopped.
      * by exists (TaskDisabled why).
      * by exists (Collection []).
  - done.
  - intros m. split.
    + simpl. apply length_map.
    + intros i mi Hi. simpl.
      change (map ?f m) with (f <$> m). by rewrite list_lookup_fmap, Hi.
Qed.

(** C6 at a batch of one metric. *)
Lemma watcher_event_variants_witness :
  Event (CatchCollection [fooMetric]) !! 0%nat
  = Some {| Namespace := "/intel/mock/foo"; Data := core.IntData 42;
            Timestamp := 1467000000; Tags := {[ "plugin_running_on" := "host1" ]} |}.
Proof.
  destruct watcher_event_variants as (_ & _ & Hbatch).
  destruct (Hbatch [fooMetric]) as [_ Heach].
  exact (Heach 0%nat fooMetric eq_refl).
Defined.

(** C6 as stated fails: no method of the handler sends an event that
    stands for [TaskEnabled]. *)
Lemma TaskEnabled_counterexample : ¬ reachesWatcher scheduler.TaskEnabledEvent.
Proof. intros [c Hc]. destruct c; discriminate. Qed.

End HandlerFacts.

(** ** pkg/aci: what a run of Extract leaves behind *)
Section AciLayout.
Import aci.

(** X1.  The loop over an archive in two parts is the loop over the first
    part followed, when that part was extracted without error, by the loop
    over the second from the file system the first left; an error in the
    first part is the result, with whatever was extracted before it still
    in place. *)
Theorem extractLoop_app (env : Env) (dir : path) (pre rest : list tarItem) (fs : FS) :
  extractLoop env dir (pre ++ rest) fs
  = match extractLoop env dir pre fs with
    | (fs1, None) => extractLoop env dir rest fs1
    | (fs1, Some err) => (fs1, Some err)
    end.
Proof.
  revert fs. induction pre as [|[h b|e] pre IH]; intros fs; simpl; [done| |done].
  destruct (Ascii.eqb (Typeflag h) TypeReg).
  - destruct (osCreate env (Join dir (Name h)) fs) as [fs1 [e|]]; [done|].
    destruct (ioCopy (Join dir (Name h)) b fs1) as [fs2 [e|]]; [done|].
    destruct (osChmod (Join dir (Name h)) fileMode fs2) as [fs3 [e|]]; [done|].
    apply IH.
  - destruct (Ascii.eqb (Typeflag h) TypeDir); [|done].
    destruct (osMkdirAll env (Join dir (Name h)) fileMode fs) as [fs1 [e|]]; [done|].
    apply IH.
Qed.

Lemma mkdirAllFrom_keeps_existing (env : Env) (perm : Z) (rest : list string) :
  ∀ (base : path) (fs fs' : FS) (r : option string) (p : path) (n : node),
    mkdirAllFrom env perm base rest fs = (fs', r) →
    fs !! p = Some n → fs' !! p = Some n.
Proof.
  induction rest as [|c rest IH]; intros base fs fs' r p n H Hp; simpl in H.
  - by injection H as <- <-.
  - destruct (fs !! (base ++ [c])) as [[m d|m]|] eqn:E.
    + by injection H as <- <-.
    + eauto.
    + eapply IH; [exact H|]. rewrite lookup_insert_ne; [done|]. congruence.
Qed.

Lemma mkdirAllFrom_makes (env : Env) (perm : Z) (rest : list string) :
  ∀ (base : path) (fs fs' : FS),
    mkdirAllFrom env perm base rest fs = (fs', None) →
    (∃ m, fs !! base = Some (Dir m)) →
    ∃ m, fs' !! (base ++ rest) = Some (Dir m).
Proof.
  induction rest as [|c rest IH]; intros base fs fs' H Hbase; simpl in H.
  - injection H as <-. by rewrite app_nil_r.
  - replace (base ++ c :: rest) with ((base ++ [c]) ++ rest) by by rewrite <- app_assoc.
    destruct (fs !! (base ++ [c])) as [[m d|m]|] eqn:E; [discriminate| |].
    + eapply IH; eauto.
    + eapply IH; [exact H|]. rewrite lookup_insert_eq. eauto.
Qed.

(** What the three calls for a regular entry leave at its path and
    elsewhere. *)
Lemma regular_entry_written (env : Env) (file : path) (b : body) (fs fs1 fs2 fs3 : FS) :
  osCreate env file fs = (fs1, None) →
  ioCopy file b fs1 = (fs2, None) →
  osChmod file fileMode fs2 = (fs3, None) →
  (∃ data, b = Bytes data ∧ fs3 !! file = Some (File fileMode data)) ∧
  (∀ m, fs !! file ≠ Some (Dir m)) ∧
  (∀ p, p ≠ file → fs3 !! p = fs !! p).
Proof.
  intros Hc Hw Hm.
  assert (Hfs1 : (∃ m, fs1 = <[file := File m ""]> fs) ∧ ∀ m, fs !! file ≠ Some (Dir m)).
  { unfold osCreate in Hc. destruct (fs !! file) as [[m d|m]|].
    - injection Hc as <-. split; [eauto|done].
    - discriminate.
    - destruct file; [destruct (fs !! removelast []) as [[?|?]|]; discriminate|].
      destruct (fs !! removelast (s :: file)) as [[?|?]|]; try discriminate.
      injection Hc as <-. split; [eauto|done]. }
  destruct Hfs1 as [[m ->] Hnd].
  unfold ioCopy in Hw. destruct b as [data|err]; [|discriminate].
  rewrite lookup_insert_eq in Hw. injection Hw as <-.
  unfold osChmod in Hm. rewrite lookup_insert_eq in Hm. injection Hm as <-.
  split_and!.
  - exists data. split; [done|]. by rewrite lookup_insert_eq.
  - exact Hnd.
  - intros p Hp. by rewrite !lookup_insert_ne.
Qed.

(** A successful run changes no directory and keeps every regular file of
    mode 0755 a regular file of mode 0755. *)
Lemma extractLoop_stable (env : Env) (dir : path) (items : list tarItem) :
  ∀ (fs fs' : FS),
    extractLoop env dir items fs = (fs', None) →
    (∀ p m, fs !! p = Some (Dir m) → fs' !! p = Some (Dir m)) ∧
    (∀ p d, fs !! p = Some (File fileMode d) → ∃ d', fs' !! p = Some (File fileMode d')).
Proof.
  induction items as [|[hdr b|err] rest IH]; intros fs fs' H; simpl in H.
  - injection H as <-. eauto.
  - destruct (Ascii.eqb (Typeflag hdr) TypeReg).
    + destruct (osCreate env (Join dir (Name hdr)) fs) as [fs1 [e|]] eqn:Ec; [discriminate|].
      destruct (ioCopy (Join dir (Name hdr)) b fs1) as [fs2 [e|]] eqn:Ew; [discriminate|].
      destruct (osChmod (Join dir (Name hdr)) fileMode fs2) as [fs3 [e|]] eqn:Em; [discriminate|].
      destruct (regular_entry_written env _ b fs fs1 fs2 fs3 Ec Ew Em)
        as ((data & _ & Hfile) & Hnd & Hother).
      destruct (IH fs3 fs' H) as [IHd IHf]. split.
      * intros p m Hp. apply IHd. rewrite Hother; [done|]. intros ->. by apply (Hnd m).
      * intros p d Hp. destruct (decide (p = Join dir (Name hdr))) as [->|Hne].
        -- eapply IHf. exact Hfile.
        -- eapply IHf. rewrite Hother; eauto.
    + destruct (Ascii.eqb (Typeflag hdr) TypeDir); [|discriminate].
      destruct (osMkdirAll env (Join dir (Name hdr)) fileMode fs) as [fs1 [e|]] eqn:Ed; [discriminate|].
      destruct (IH fs1 fs' H) as [IHd IHf]. split.
      * intros p m Hp. apply IHd. eapply mkdirAllFrom_keeps_existing; eauto.
      * intros p d Hp. eapply IHf. eapply mkdirAllFrom_keeps_existing; eauto.
  - discriminate.
Qed.

(** X2.  After a run of the loop without error, over a file system whose
    root is a directory, the path of every regular entry of the archive is
    a regular file of mode 0755 and the path of every directory entry is a
    directory. *)
Theorem extractLoop_layout (env : Env) (dir : path) (items : list tarItem) (fs fs' : FS) :
  extractLoop env dir items fs = (fs', None) →
  (∃ m, fs !! [] = Some (Dir m)) →
  ∀ (hdr : Header) (b : body), Entry hdr b ∈ items →
    (Typeflag hdr = TypeReg → ∃ data, fs' !! Join dir (Name hdr) = Some (File fileMode data)) ∧
    (Typeflag hdr = TypeDir → ∃ m, fs' !! Join dir (Name hdr) = Some (Dir m)).
Proof.
  revert fs. induction items as [|[h c|err] rest IH]; intros fs H Hroot hdr b Hin.
  - by apply elem_of_nil in Hin.
  - pose proof H as Hrun. simpl in H.
    destruct (Ascii.eqb_spec (Typeflag h) TypeReg) as [Hreg|Hnreg].
    + destruct (osCreate env (Join dir (Name h)) fs) as [fs1 [e|]] eqn:Ec; [discriminate|].
      destruct (ioCopy (Join dir (Name h)) c fs1) as [fs2 [e|]] eqn:Ew; [discriminate|].
      destruct (osChmod (Join dir (Name h)) fileMode fs2) as [fs3 [e|]] eqn:Em; [discriminate|].
      destruct (regular_entry_written env _ c fs fs1 fs2 fs3 Ec Ew Em)
        as ((data & _ & Hfile) & Hnd & Hother).
      apply elem_of_cons in Hin as [[= -> ->]|Hin].
      * split.
        -- intros _. destruct (extractLoop_stable env dir rest fs3 fs' H) as [_ Hf]. eauto.
        -- intros Hd. rewrite Hreg in Hd. discriminate.
      * refine (IH fs3 H _ hdr b Hin). destruct Hroot as [m Hm]. exists m.
        rewrite Hother; [done|]. intros Heq. apply (Hnd m). by rewrite <- Heq.
    + destruct (Ascii.eqb_spec (Typeflag h) TypeDir) as [Hdir|Hndir]; [|discriminate].
      destruct (osMkdirAll env (Join dir (Name h)) fileMode fs) as [fs1 [e|]] eqn:Ed; [discriminate|].
      apply elem_of_cons in Hin as [[= -> ->]|Hin].
      * split; [done|]. intros _.
        destruct (mkdirAllFrom_makes env fileMode (Join dir (Name h)) [] fs fs1 Ed Hroot) as [m Hm].
        destruct (extractLoop_stable env dir rest fs1 fs' H) as [Hd _]. eauto.
      * refine (IH fs1 H _ hdr b Hin). destruct Hroot as [m Hm]. exists m.
        eapply mkdirAllFrom_keeps_existing; eauto.
  - discriminate.
Qed.

(** X2 at an archive with a directory and a file in it. *)
Lemma extractLoop_layout_witness :
  ∃ fs' data,
    extractLoop env022 ["tmp"; "aci0"]
      [ Entry {| Name := "rootfs"; Typeflag := TypeDir |} (Bytes "");
        Entry {| Name := "rootfs/plugin"; Typeflag := TypeReg |} (Bytes "ELF") ]
      (<[ ["tmp"; "aci0"] := Dir 448 ]> freshFS) = (fs', None) ∧
    fs' !! ["tmp"; "aci0"; "rootfs"; "plugin"] = Some (File fileMode data).
Proof.
  destruct (extractLoop env022 ["tmp"; "aci0"]
      [ Entry {| Name := "rootfs"; Typeflag := TypeDir |} (Bytes "");
        Entry {| Name := "rootfs/plugin"; Typeflag := TypeReg |} (Bytes "ELF") ]
      (<[ ["tmp"; "aci0"] := Dir 448 ]> freshFS)) as [fs' r] eqn:Hrun.
  assert (Hr : r = None) by (apply (f_equal snd) in Hrun; vm_compute in Hrun; congruence).
  subst r.
  destruct (extractLoop_layout _ _ _ _ _ Hrun) with
    (hdr := {| Name := "rootfs/plugin"; Typeflag := TypeReg |}) (b := Bytes "ELF")
    as [Hfile _].
  - exists 493. reflexivity.
  - right. left.
  - destruct (Hfile eq_refl) as [data Hdata]. exists fs', data. split; [reflexivity|exact Hdata].
Defined.

Lemma extractLoop_keeps_file (env : Env) (dir : path) (p : path) (post : list tarItem) :
  ∀ (fs fs' : FS) (n : node),
    extractLoop env dir post fs = (fs', None) →
    fs !! p = Some n →
    (∀ h b, Entry h b ∈ post → Typeflag h = TypeReg → Join dir (Name h) ≠ p) →
    fs' !! p = Some n.
Proof.
  induction post as [|[h c|err] rest IH]; intros fs fs' n H Hp Hother.
  - simpl in H. by injection H as <-.
  - simpl in H. destruct (Ascii.eqb_spec (Typeflag h) TypeReg) as [Hreg|Hnreg].
    + destruct (osCreate env (Join dir (Name h)) fs) as [fs1 [e|]] eqn:Ec; [discriminate|].
      destruct (ioCopy (Join dir (Name h)) c fs1) as [fs2 [e|]] eqn:Ew; [discriminate|].
      destruct (osChmod (Join dir (Name h)) fileMode fs2) as [fs3 [e|]] eqn:Em; [discriminate|].
      destruct (regular_entry_written env _ c fs fs1 fs2 fs3 Ec Ew Em) as (_ & _ & Hfr).
      eapply IH; [exact H| |].
      * rewrite Hfr; [done|]. intros ->. by apply (Hother h c ltac:(left) Hreg).
      * intros h' b' Hin. apply (Hother h' b'). by right.
    + destruct (Ascii.eqb (Typeflag h) TypeDir); [|discriminate].
      destruct (osMkdirAll env (Join dir (Name h)) fileMode fs) as [fs1 [e|]] eqn:Ed; [discriminate|].
      eapply IH; [exact H| |].
      * eapply mkdirAllFrom_keeps_existing; eauto.
      * intros h' b' Hin. apply (Hother h' b'). by right.
  - discriminate.
Qed.

(** X3.  After a run without error, a regular entry whose path no later
    regular entry has is a file holding exactly the bytes of the entry. *)
Theorem extractLoop_round_trip
    (env : Env) (dir : path) (pre post : list tarItem) (hdr : Header) (b : body) (fs fs' : FS) :
  extractLoop env dir (pre ++ Entry hdr b :: post) fs = (fs', None) →
  Typeflag hdr = TypeReg →
  (∀ h c, Entry h c ∈ post → Typeflag h = TypeReg → Join dir (Name h) ≠ Join dir (Name hdr)) →
  ∃ data, b = Bytes data ∧ fs' !! Join dir (Name hdr) = Some (File fileMode data).
Proof.
  intros H Hreg Hlater. rewrite extractLoop_app in H.
  destruct (extractLoop env dir pre fs) as [fs0 [e|]]; [discriminate|].
  simpl in H. rewrite Hreg in H. simpl in H.
  destruct (osCreate env (Join dir (Name hdr)) fs0) as [fs1 [e|]] eqn:Ec; [discriminate|].
  destruct (ioCopy (Join dir (Name hdr)) b fs1) as [fs2 [e|]] eqn:Ew; [discriminate|].
  destruct (osChmod (Join dir (Name hdr)) fileMode fs2) as [fs3 [e|]] eqn:Em; [discriminate|].
  destruct (regular_entry_written env _ b fs0 fs1 fs2 fs3 Ec Ew Em) as ((data & -> & Hfile) & _).
  exists data. split; [done|]. eapply extractLoop_keeps_file; eauto.
Qed.

(** X3 at a file followed by a directory. *)
Lemma extractLoop_round_trip_witness :
  ∃ fs',
    extractLoop env022 ["tmp"; "aci0"]
      ([] ++ Entry {| Name := "manifest"; Typeflag := TypeReg |} (Bytes "{}")
          :: [ Entry {| Name := "rootfs"; Typeflag := TypeDir |} (Bytes "") ])
      (<[ ["tmp"; "aci0"] := Dir 448 ]> freshFS) = (fs', None) ∧
    fs' !! ["tmp"; "aci0"; "manifest"] = Some (File fileMode "{}").
Proof.
  destruct (extractLoop env022 ["tmp"; "aci0"]
      ([] ++ Entry {| Name := "manifest"; Typeflag := TypeReg |} (Bytes "{}")
          :: [ Entry {| Name := "rootfs"; Typeflag := TypeDir |} (Bytes "") ])
      (<[ ["tmp"; "aci0"] := Dir 448 ]> freshFS)) as [fs' r] eqn:Hrun.
  assert (Hr : r = None) by (apply (f_equal snd) in Hrun; vm_compute in Hrun; congruence).
  subst r. exists fs'. split; [reflexivity|].
  destruct (extractLoop_round_trip _ _ _ _ _ _ _ _ Hrun eq_refl) as (data & Hb & Hfile).
  - intros h c Hin Hreg. apply list_elem_of_singleton in Hin. injection Hin as -> _.
    discriminate.
  - injection Hb as <-. exact Hfile.
Defined.

(** *** Names that leave the extraction directory *)

(** No slash in the name. *)
Fixpoint slashFree (s : string) : bool :=
  match s with
  | EmptyString => true
  | String c s' => negb (Ascii.eqb c "/"%char) && slashFree s'
  end.

Lemma append_empty_r (s : string) : s +:+ "" = s.
Proof.
  induction s as [|a s IH]; [reflexivity|].
  change (String a (s +:+ "") = String a s). by f_equal.
Qed.

Lemma append_snoc (cur : string) (c : ascii) (s : string) :
  (cur +:+ String c EmptyString) +:+ s = cur +:+ String c s.
Proof.
  induction cur as [|a cur IH]; [reflexivity|].
  change (String a ((cur +:+ String c EmptyString) +:+ s) = String a (cur +:+ String c s)).
  by f_equal.
Qed.

Lemma splitSlash_slashFree (s : string) :
  slashFree s = true → ∀ cur, splitSlash cur s = [cur +:+ s].
Proof.
  induction s as [|c s IH]; simpl; intros Hs cur.
  - by rewrite append_empty_r.
  - apply andb_true_iff in Hs as [Hc Hs]. apply negb_true_iff in Hc. rewrite Hc.
    rewrite IH by done. by rewrite append_snoc.
Qed.

Lemma Join_parent (dir : path) (x : string) :
  slashFree x = true → x ≠ "" → x ≠ "." → x ≠ ".." →
  Join dir ("../" +:+ x) = removelast dir ++ [x].
Proof.
  intros Hs H1 H2 H3. unfold Join.
  change ("../" +:+ x) with (String "."%char (String "."%char (String "/"%char x))).
  simpl. rewrite splitSlash_slashFree by done.
  change ("" +:+ x) with x. simpl.
  unfold cleanStep at 2. simpl. unfold cleanStep.
  apply String.eqb_neq in H1, H2, H3. by rewrite H1, H2, H3.
Qed.

(** X4.  [Extract] does not confine the entries to the directory it
    extracts to: a regular entry named [../x] is written beside the
    temporary directory, as [/tmp/x], with the bytes of the entry and mode
    0755. *)
Theorem Extract_leaves_directory
    (env : Env) (fs : FS) (x data : string) (verdict : option string) (m : Z) :
  slashFree x = true → x ≠ "" → x ≠ "." → x ≠ ".." → x ≠ tempName env →
  fs !! ["tmp"] = Some (Dir m) →
  fs !! ["tmp"; tempName env] = None →
  fs !! ["tmp"; x] = None →
  ∃ fs',
    Extract env (Image [Entry {| Name := "../" +:+ x; Typeflag := TypeReg |} (Bytes data)] verdict) fs
    = Returned (fs', (pathString ["tmp"; tempName env], None)) ∧
    fs' !! ["tmp"; x] = Some (File fileMode data) ∧
    ¬ strictlyUnder ["tmp"; tempName env] ["tmp"; x].
Proof.
  intros Hs H1 H2 H3 Hx Htmp Hdir Hfile.
  unfold Extract. simpl. unfold TempDir. rewrite Htmp, Hdir. simpl.
  rewrite (Join_parent ["tmp"; tempName env] x) by done. simpl.
  unfold osCreate. rewrite lookup_insert_ne by congruence. rewrite Hfile. simpl.
  rewrite lookup_insert_ne by congruence. rewrite Htmp.
  unfold ioCopy. rewrite lookup_insert_eq.
  unfold osChmod. rewrite lookup_insert_eq.
  eexists. split; [reflexivity|]. split; [by rewrite lookup_insert_eq|].
  intros [suffix [Hne Heq]]. simpl in Heq. injection Heq as Hx' Hnil.
  by destruct suffix.
Qed.

(** X4 at an entry named [../evil]. *)
Lemma Extract_leaves_directory_witness :
  ∃ fs',
    Extract env022 (Image [Entry {| Name := "../evil"; Typeflag := TypeReg |} (Bytes "x")] None)
      freshFS
    = Returned (fs', ("/tmp/aci0", None)) ∧
    fs' !! ["tmp"; "evil"] = Some (File fileMode "x").
Proof.
  destruct (Extract_leaves_directory env022 freshFS "evil" "x" None 511)
    as (fs' & Hrun & Hfile & _); try done.
  exists fs'. split; [exact Hrun|exact Hfile].
Defined.

End AciLayout.

(** ** control: the fields of the configuration *)
Section ControlFields.
Import control.
Context `{Decoders}.

(** The field of [c'] is what [json.Unmarshal] makes of [v] over the
    field of [c]. *)
Definition decodedField (f : field) (v : jsonValue) (c c' : Config) : Prop :=
  match f with
  | FMaxRunningPlugins => unmarshalInt v (MaxRunningPlugins c) = Ok (MaxRunningPlugins c')
  | FPluginLoadTimeout => unmarshalInt v (PluginLoadTimeout c) = Ok (PluginLoadTimeout c')
  | FPluginTrust => unmarshalInt v (PluginTrust c) = Ok (PluginTrust c')
  | FAutoDiscoverPath => unmarshalString v (AutoDiscoverPath c) = Ok (AutoDiscoverPath c')
  | FKeyringPaths => unmarshalString v (KeyringPaths c) = Ok (KeyringPaths c')
  | FCacheExpiration => unmarshalDuration v (CacheExpiration c) = Ok (CacheExpiration c')
  | FPlugins => unmarshalPlugins v (Plugins c) = Ok (Plugins c')
  | FListenAddr => unmarshalString v (ListenAddr c) = Ok (ListenAddr c')
  | FListenPort => unmarshalInt v (ListenPort c) = Ok (ListenPort c')
  end.

Lemma switchKey_decodes (f : field) (v : jsonValue) (c c' : Config) :
  switchKey (keyOf f) v c = (c', None) → decodedField f v c c'.
Proof.
  destruct f; unfold switchKey; simpl;
    repeat match goal with
      | |- context [match ?d with Ok _ => _ | Err _ => _ end] => destruct d eqn:?
      end; intros [= <-]; simpl; done.
Qed.

Lemma decodedField_old (f : field) (v : jsonValue) (c0 c c' : Config) :
  sameField f c0 c → decodedField f v c c' → decodedField f v c0 c'.
Proof. destruct f; simpl; intros ->; done. Qed.

Lemma decodedField_new (f : field) (v : jsonValue) (c c' c'' : Config) :
  sameField f c' c'' → decodedField f v c c' → decodedField f v c c''.
Proof. destruct f; simpl; intros ->; done. Qed.

Lemma rangeLoop_frame (f : field) (entries : list (string * jsonValue)) :
  ∀ c : Config,
    (∀ k v, (k, v) ∈ entries → k ≠ keyOf f) →
    sameField f c (rangeLoop entries c).1.
Proof.
  induction entries as [|[k v] rest IH]; intros c Hk; simpl.
  - apply sameField_refl.
  - pose proof (switchKey_frame f k v c (Hk k v ltac:(left))) as Hstep.
    destruct (switchKey k v c) as [c' [e|]]; [done|].
    eapply sameField_trans; [exact Hstep|]. apply IH.
    intros k' v' Hin. apply (Hk k' v'). by right.
Qed.

Lemma rangeLoop_decodes (f : field) (v : jsonValue) (entries : list (string * jsonValue)) :
  ∀ c c' : Config,
    NoDup entries.*1 →
    (keyOf f, v) ∈ entries →
    rangeLoop entries c = (c', None) →
    decodedField f v c c'.
Proof.
  induction entries as [|[k0 v0] rest IH]; intros c c' Hnd Hin Hrun.
  - by apply elem_of_nil in Hin.
  - simpl in Hrun. apply NoDup_cons in Hnd as [Hfresh Hnd]. simpl in Hfresh.
    destruct (switchKey k0 v0 c) as [c1 [e|]] eqn:Hstep; [discriminate|].
    apply elem_of_cons in Hin as [[= <- <-]|Hin].
    + apply (decodedField_new f v c c1 c').
      * replace c' with (rangeLoop rest c1).1 by by rewrite Hrun.
        apply rangeLoop_frame. intros k' v' Hin' ->. apply Hfresh.
        apply list_elem_of_fmap. by exists (keyOf f, v').
      * by apply switchKey_decodes.
    + apply (decodedField_old f v c c1 c').
      * replace c1 with (switchKey k0 v0 c).1 by by rewrite Hstep.
        apply switchKey_frame. intros ->. apply Hfresh.
        apply list_elem_of_fmap. by exists (keyOf f, v).
      * by apply IH.
Qed.

(** X5.  A field whose key the object does not have keeps its value,
    whether [UnmarshalJSON] returns nil or an error; when it returns nil,
    a field whose key the object has holds what [json.Unmarshal] makes of
    the member's value. *)
Theorem UnmarshalJSON_fields
    (order : list (string * jsonValue) → list (string * jsonValue))
    (data : jsonValue) (t : gmap string jsonValue) (c : Config) (f : field) :
  (∀ l, order l ≡ₚ l) →
  unmarshalMap data = Ok t →
  (t !! keyOf f = None → sameField f c (UnmarshalJSON order data c).1) ∧
  (∀ v, t !! keyOf f = Some v → (UnmarshalJSON order data c).2 = None →
        decodedField f v c (UnmarshalJSON order data c).1).
Proof.
  intros Hperm Hmap. unfold UnmarshalJSON. rewrite Hmap.
  assert (Hmem : ∀ k v, (k, v) ∈ order (map_to_list t) ↔ t !! k = Some v).
  { intros k v. rewrite (Hperm (map_to_list t)). apply elem_of_map_to_list. }
  split.
  - intros Hnone. apply rangeLoop_frame. intros k v Hin ->.
    apply Hmem in Hin. congruence.
  - intros v Hv Hnil.
    destruct (rangeLoop (order (map_to_list t)) c) as [c' r] eqn:Hrun. simpl in *. subst r.
    eapply rangeLoop_decodes; [|by apply Hmem|exact Hrun].
    rewrite (Hperm (map_to_list t)). apply NoDup_fst_map_to_list.
Qed.

Lemma switchKey_commute (k1 k2 : string) (v1 v2 : jsonValue) (c : Config) :
  k1 ≠ k2 →
  (switchKey k2 v2 (switchKey k1 v1 c).1).1 = (switchKey k1 v1 (switchKey k2 v2 c).1).1.
Proof.
  intros Hne. unfold switchKey.
  repeat match goal with
    | |- context [String.eqb k1 ?s] => destruct (String.eqb_spec k1 s); [subst k1|]
    end;
  repeat match goal with
    | |- context [String.eqb k2 ?s] => destruct (String.eqb_spec k2 s); [subst k2|]
    end;
  try done;
  repeat (simpl;
          match goal with
          | |- context [match ?d with Ok _ => _ | Err _ => _ end] => destruct d eqn:?
          end);
  simpl in *; congruence.
Qed.

(** Two walks of the same entries, with keys that differ pairwise: when one
    ends without error, the other ends the same. *)
Lemma rangeLoop_Permutation (l l' : list (string * jsonValue)) :
  l ≡ₚ l' →
  NoDup l.*1 →
  ∀ c : Config, (rangeLoop l c).2 = None → rangeLoop l' c = rangeLoop l c.
Proof.
  induction 1 as [|[k v] l l' Hperm IH|[k1 v1] [k2 v2] l|l l' l'' Hperm1 IH1 Hperm2 IH2];
    intros Hnd c Hnil.
  - done.
  - simpl in *. apply NoDup_cons in Hnd as [_ Hnd].
    destruct (switchKey k v c) as [c1 [e|]]; [done|]. by apply IH.
  - simpl in *.
    apply NoDup_cons in Hnd as [Hfresh _]. simpl in Hfresh.
    assert (Hne : k1 ≠ k2) by (intros ->; apply Hfresh; by left).
    pose proof (switchKey_error_independent k1 k2 v1 v2 c Hne) as He1.
    pose proof (switchKey_error_independent k2 k1 v2 v1 c (not_eq_sym Hne)) as He2.
    pose proof (switchKey_commute k1 k2 v1 v2 c Hne) as Hc.
    destruct (switchKey k2 v2 c) as [cb [e|]]; [done|]. simpl in *.
    destruct (switchKey k1 v1 cb) as [cd [e|]]; [done|]. simpl in *.
    destruct (switchKey k1 v1 c) as [ca ra]. simpl in *. subst ra.
    destruct (switchKey k2 v2 ca) as [cc rc]. simpl in *. by subst.
  - rewrite IH2.
    + by apply IH1.
    + by rewrite <- Hperm1.
    + rewrite IH1; done.
Qed.

(** X6.  When [UnmarshalJSON] returns nil for one order of the walk over
    the map, it returns nil and leaves the same configuration for every
    other order. *)
Theorem UnmarshalJSON_order_independent
    (order order' : list (string * jsonValue) → list (string * jsonValue))
    (data : jsonValue) (c : Config) :
  (∀ l, order l ≡ₚ l) →
  (∀ l, order' l ≡ₚ l) →
  (UnmarshalJSON order data c).2 = None →
  UnmarshalJSON order' data c = UnmarshalJSON order data c.
Proof.
  intros Hperm Hperm'. unfold UnmarshalJSON.
  destruct (unmarshalMap data) as [t|e]; [|done].
  intros Hnil. apply rangeLoop_Permutation; [|..|done].
  - by rewrite Hperm, Hperm'.
  - rewrite (Hperm (map_to_list t)). apply NoDup_fst_map_to_list.
Qed.




End ControlFields.


Section ControlFieldRuns.
Import control.

(** [{"plugin_trust_level": 0, "cache_expiration": "1s"}]. *)
Definition twoSettings : jsonValue :=
  JObject [("plugin_trust_level", JNumber 0); ("cache_expiration", JString "1s")].

(** X5 at that object over the default configuration: the port keeps its
    default and the trust level is the one given. *)
Lemma UnmarshalJSON_fields_witness :
  (∀ l, backwards l ≡ₚ l) ∧
  ListenPort (UnmarshalJSON backwards twoSettings defaultConfig).1 = ListenPort defaultConfig ∧
  unmarshalInt (JNumber 0) (PluginTrust defaultConfig)
  = Ok (PluginTrust (UnmarshalJSON backwards twoSettings defaultConfig).1).
Proof.
  assert (Hperm : ∀ l, backwards l ≡ₚ l) by (intros l; apply reverse_Permutation).
  assert (Hmap : unmarshalMap twoSettings
                 = Ok (<["cache_expiration" := JString "1s"]>
                         (<["plugin_trust_level" := JNumber 0]> ∅))) by reflexivity.
  split; [exact Hperm|]. split.
  - destruct (UnmarshalJSON_fields backwards twoSettings _ defaultConfig FListenPort
                Hperm Hmap) as [Hkeep _].
    apply Hkeep. vm_compute. reflexivity.
  - destruct (UnmarshalJSON_fields backwards twoSettings _ defaultConfig FPluginTrust
                Hperm Hmap) as [_ Hset].
    apply (Hset (JNumber 0)); vm_compute; reflexivity.
Defined.

(** X6 at that object, walked forwards and backwards. *)
Lemma UnmarshalJSON_order_independent_witness :
  (∀ l, asStored l ≡ₚ l) ∧ (∀ l, backwards l ≡ₚ l) ∧
  UnmarshalJSON asStored twoSettings defaultConfig
  = UnmarshalJSON backwards twoSettings defaultConfig.
Proof.
  assert (Hperm : ∀ l, backwards l ≡ₚ l) by (intros l; apply reverse_Permutation).
  assert (Hid : ∀ l, asStored l ≡ₚ l) by (intros l; reflexivity).
  split; [exact Hid|]. split; [exact Hperm|].
  apply (UnmarshalJSON_order_independent backwards asStored twoSettings defaultConfig Hperm Hid).
  vm_compute. reflexivity.
Defined.


End ControlFieldRuns.
(** ** mgmt/rest: the loop of a watch *)
Section WatchLoop.
Import rbody rest.

(** The rounds of the loop of [watchTask] for the cases its [select]s
    take, in turn; after the [return] no case is taken any more. *)
Definition loop (cs : list selected) (w : watch) : watch :=
  fold_left (λ w c, if selecting w then round c w else w) cs w.

(** The events received from [mChan] up to the first case that is not a
    receive. *)
Fixpoint received (cs : list selected) : list StreamedTaskEvent :=
  match cs with
  | FromMChan e :: cs' => e :: received cs'
  | _ => []
  end.

(** Whether one of the cases is the client going or the server being
    shut down. *)
Definition cancelled (cs : list selected) : bool :=
  existsb (λ c, match c with FromMChan _ => false | _ => true end) cs.

(** The event types the loop writes, and those on which it closes the
    watcher. *)
Definition isWritten (e : StreamedTaskEvent) : bool :=
  match EventType e with
  | TaskWatchStreamOpen => false
  | _ => true
  end.
Definition endsStream (e : StreamedTaskEvent) : bool :=
  match EventType e with
  | TaskWatchTaskDisabled | TaskWatchTaskStopped => true
  | _ => false
  end.

Lemma loop_returned (cs : list selected) (w : watch) :
  selecting w = false → loop cs w = w.
Proof.
  intros Hw. induction cs as [|c cs IH]; [done|]. simpl. by rewrite Hw.
Qed.

(** What a run of the loop does to a watch that is still selecting. *)
Lemma loop_effect (cs : list selected) :
  ∀ w : watch, selecting w = true →
    selecting (loop cs w) = negb (cancelled cs) ∧
    written (loop cs w) = reverse (filter (λ e, isWritten e = true) (received cs)) ++ written w ∧
    closes (loop cs w)
    = (closes w + length (filter (λ e, endsStream e = true) (received cs))
       + (if cancelled cs then 1 else 0))%nat ∧
    ended (loop cs w)
    = (ended w + length (filter (λ e, endsStream e = true) (received cs))
       + (if cancelled cs then 1 else 0))%nat.
Proof.
  induction cs as [|c cs IH]; intros w Hw.
  - simpl. rewrite Hw. split_and!; [done|done|lia|lia].
  - change (loop (c :: cs) w) with (loop cs (if selecting w then round c w else w)).
    rewrite Hw. destruct c as [e| |].
    + assert (Hsel : selecting (round (FromMChan e) w) = true)
        by (simpl; destruct (EventType e); done).
      destruct (IH _ Hsel) as (H1 & H2 & H3 & H4). clear IH.
      change (cancelled (FromMChan e :: cs)) with (cancelled cs).
      change (received (FromMChan e :: cs)) with (e :: received cs).
      rewrite H1, H2, H3, H4, !filter_cons. unfold isWritten, endsStream. simpl.
      destruct (EventType e); simpl;
        repeat case_decide; try done; simpl;
        rewrite ?reverse_cons, <- ?app_assoc; simpl; split_and!; try done; lia.
    + rewrite loop_returned by done. simpl. split_and!; [done|done|lia|lia].
    + rewrite loop_returned by done. simpl. split_and!; [done|done|lia|lia].
Qed.

(** X7.  The loop of [watchTask] returns exactly when the client goes or
    the server is shut down: no event received from the handler, that of a
    stopped or disabled task included, makes it return. *)
Theorem watchTask_returns_on_cancel_only (cs : list selected) :
  selecting (loop cs opened) = false ↔ cancelled cs = true.
Proof.
  destruct (loop_effect cs opened eq_refl) as (-> & _).
  by destruct (cancelled cs).
Qed.

(** X8.  The events written to the response are the opening event and then
    every event received from the handler until the loop returns, in the
    order received; events received after that of a stopped or disabled
    task are written like the others. *)
Theorem watch_stream_faithful (cs : list selected) :
  written (loop cs opened)
  = reverse (filter (λ e, isWritten e = true) (received cs)) ++ written opened.
Proof. by destruct (loop_effect cs opened eq_refl) as (_ & -> & _). Qed.

(** X9.  [tc.Close()] is called once for each event of a stopped or
    disabled task that is received and once more when the loop returns,
    each time with the end-of-watch body responded: twice for a watch
    whose task stopped before its client went. *)
Theorem watch_closes_counted (cs : list selected) :
  closes (loop cs opened)
  = (length (filter (λ e, endsStream e = true) (received cs))
     + (if cancelled cs then 1 else 0))%nat ∧
  ended (loop cs opened) = closes (loop cs opened).
Proof.
  destruct (loop_effect cs opened eq_refl) as (_ & _ & -> & ->). simpl. done.
Qed.

End WatchLoop.

(** ** mgmt/rest: the status of a request on a task *)
Section StatusFacts.
Import rest.

(** X10.  [startTask], [stopTask], [removeTask] and [enableTask] answer 404
    whenever the error, for the first two the first of the errors, mentions
    "Task not found" anywhere in its text, whatever else the text says (the
    text of a disabled task included) and whatever errors follow. *)
Theorem task_not_found_is_404 (before after : string) (others : list string) :
  startTask ((before +:+ ErrTaskNotFound +:+ after) :: others) = 404 ∧
  stopTask ((before +:+ ErrTaskNotFound +:+ after) :: others) = 404 ∧
  removeTask (Some (before +:+ ErrTaskNotFound +:+ after)) = 404 ∧
  enableTask (Some (before +:+ ErrTaskNotFound +:+ after)) = 404.
Proof. unfold startTask, stopTask, removeTask, enableTask. by rewrite Contains_infix. Qed.

End StatusFacts.
(** ** scheduler tests: the mock manager and the handler of the test *)
Section MockFacts.
Import scheduler.

(** A call on the mock manager. *)
Inductive mockCall : Type :=
| CallSubscribeDeps (taskID : string) (reqs : list (string * Z)) (cps : list SubscribedPlugin)
| CallUnsubscribeDeps (taskID : string).

Definition isSubscribe (c : mockCall) : bool :=
  match c with CallSubscribeDeps _ _ _ => true | CallUnsubscribeDeps _ => false end.

Definition mockStep (m : subscriptionManager) (c : mockCall) : subscriptionManager :=
  match c with
  | CallSubscribeDeps taskID reqs cps => (subscriptionManager_SubscribeDeps taskID reqs cps m).1
  | CallUnsubscribeDeps taskID => (subscriptionManager_UnsubscribeDeps taskID m).1
  end.

(** What a sequence of calls does to the mock. *)
Lemma mockSteps_counts (calls : list mockCall) (m : subscriptionManager) :
  let m' := fold_left mockStep calls m in
  Fail m' = Fail m ∧
  UnsubscribeCallCount m'
  = UnsubscribeCallCount m + Z.of_nat (length (filter (λ c, isSubscribe c = false) calls)) ∧
  SubscribeCallCount m'
  = SubscribeCallCount m
    + (if Fail m then 0 else Z.of_nat (length (filter (λ c, isSubscribe c = true) calls))).
Proof.
  revert m. induction calls as [|c calls IH]; intros m; simpl.
  - destruct (Fail m); split_and!; lia.
  - destruct (IH (mockStep m c)) as (Hf & Hu & Hs). rewrite Hf, Hu, Hs. clear IH Hf Hu Hs.
    rewrite !filter_cons.
    destruct c as [id reqs cps|id]; simpl;
      unfold subscriptionManager_SubscribeDeps, subscriptionManager_UnsubscribeDeps;
      destruct (Fail m) eqn:Ef; simpl; rewrite ?Ef;
      repeat case_decide; try done; simpl; split_and!; try done; lia.
Qed.

(** X11.  Over any sequence of calls on the mock manager, [Fail] stays as
    it is, [UnsubscribeCallCount] grows by the number of
    [UnsubscribeDeps] calls, and [SubscribeCallCount] grows by the number of
    [SubscribeDeps] calls when [Fail] is false and not at all when it is
    true: a failing mock never counts a subscription. *)
Theorem subscriptionManager_counts (calls : list mockCall) (m : subscriptionManager) :
  let m' := fold_left mockStep calls m in
  Fail m' = Fail m ∧
  UnsubscribeCallCount m'
  = UnsubscribeCallCount m + Z.of_nat (length (filter (λ c, isSubscribe c = false) calls)) ∧
  SubscribeCallCount m'
  = SubscribeCallCount m
    + (if Fail m then 0 else Z.of_nat (length (filter (λ c, isSubscribe c = true) calls))).
Proof. exact (mockSteps_counts calls m). Qed.

(** X14.  On a failing mock whose two counters are equal, they are equal
    again after a sequence of calls exactly when [UnsubscribeDeps] was not
    called: the equality the subscription tests assert of the failing
    manager holds only if it was never unsubscribed. *)
Theorem failing_mock_balance (calls : list mockCall) (m : subscriptionManager) :
  Fail m = true →
  SubscribeCallCount m = UnsubscribeCallCount m →
  let m' := fold_left mockStep calls m in
  SubscribeCallCount m' = UnsubscribeCallCount m' ↔ Forall (λ c, isSubscribe c = true) calls.
Proof.
  intros Hfail Heq m'. subst m'.
  destruct (mockSteps_counts calls m) as (_ & -> & ->). rewrite Hfail, Heq.
  assert (Hlen : length (filter (λ c, isSubscribe c = false) calls) = 0%nat
                 ↔ Forall (λ c, isSubscribe c = true) calls).
  { clear. induction calls as [|c calls IH]; [by split|].
    rewrite filter_cons, Forall_cons. destruct (isSubscribe c) eqn:Ec.
    - rewrite decide_False by done. rewrite IH. tauto.
    - rewrite decide_True by done. simpl. split; [discriminate|]. intros [? _]. discriminate. }
  rewrite <- Hlen. lia.
Qed.

(** X14 at a refused subscription followed by the compensation the
    specification words ask for: the counters end unequal. *)
Lemma failing_mock_balance_witness :
  let m := {| Fail := true; SubscribeCallCount := 0; UnsubscribeCallCount := 0 |} in
  let calls := [ CallSubscribeDeps "t" [] []; CallUnsubscribeDeps "t" ] in
  SubscribeCallCount (fold_left mockStep calls m)
  ≠ UnsubscribeCallCount (fold_left mockStep calls m).
Proof.
  intros m calls Heq.
  apply (failing_mock_balance calls m eq_refl eq_refl) in Heq.
  apply Forall_cons in Heq as [_ Heq]. apply Forall_cons in Heq as [Heq _]. discriminate.
Defined.

(** [HandleGomitEvent] on each event of a list in turn. *)
Fixpoint HandleGomitEvents (evs : list Event) (respChanClosed : bool) : outcome bool :=
  match evs with
  | [] => Returned respChanClosed
  | ev :: rest =>
      match HandleGomitEvent ev respChanClosed with
      | Panicked msg => Panicked msg
      | Returned closed => HandleGomitEvents rest closed
      end
  end.

Definition isDisabledEvent (ev : Event) : bool :=
  match ev with TaskDisabledEvent _ => true | _ => false end.

(** X12.  The handler of the workflow test, fed the events of a scheduler
    in turn with [respChan] open: without a [TaskDisabledEvent] the channel
    stays open, with one it is closed, and a second one panics on closing
    the closed channel. *)
Theorem failHandler_closes_once (evs : list Event) :
  HandleGomitEvents evs false
  = match length (filter (λ ev, isDisabledEvent ev = true) evs) with
    | O => Returned false
    | S O => Returned true
    | S (S _) => Panicked "close of closed channel"
    end.
Proof.
  assert (Hclosed : ∀ evs,
    HandleGomitEvents evs true
    = match length (filter (λ ev, isDisabledEvent ev = true) evs) with
      | O => Returned true
      | S _ => Panicked "close of closed channel"
      end).
  { clear evs. intros evs. induction evs as [|ev evs IH]; [done|].
    rewrite filter_cons. destruct (isDisabledEvent ev) eqn:Ed.
    - rewrite decide_True by done. by destruct ev.
    - rewrite decide_False by done. destruct ev; try exact IH. discriminate. }
  induction evs as [|ev evs IH]; [done|].
  rewrite filter_cons. destruct (isDisabledEvent ev) eqn:Ed.
  - rewrite decide_True by done. destruct ev; try discriminate.
    simpl. rewrite Hclosed. by destruct (length _).
  - rewrite decide_False by done. destruct ev; try exact IH. discriminate.
Qed.

End MockFacts.

